(** * NanoClaw: dashboard event bus, dashboard server and Telegram JIDs

    A shallow embedding of
      - dashboard-events.ts  (class [DashboardEventEmitter], singleton [dashboardEvents]),
      - dashboard-server.ts  (the WebSocket part of [startDashboardServer]),
      - telegram.ts          ([telegramChatIdToJid], [jidToTelegramChatId],
                              [sendTelegramMessage], [setTelegramTyping],
                              [connectTelegram] and its message listener, in
                              both versions the repository holds),
    followed by the properties of the specification that concern them and
    by further properties of the code.

    Conventions.
      - A JavaScript array is represented by the list of its elements;
        [Array_push] and [Array_shift] are the two methods the code uses.
        Module [ArrayStore] keeps arrays in a store of mutable objects; the
        private array of the emitter never escapes it, which is what
        justifies the list view used everywhere else.
      - JavaScript runs the program on one thread: every callback runs to
        completion before the next one starts. A step of the system is
        therefore one whole callback (a publish, a connection, a close).
      - A call that may raise returns an [Outcome]: the state reached and
        whether the call returned or threw.
      - [JSON.stringify] is partial: the payload of an event is [unknown],
        and on a payload with a cycle or a BigInt it throws. Nothing in
        this code catches an exception. *)

From Stdlib Require Import ZArith Ascii String.
From stdpp Require Import base list gmap strings pretty.

(** ** Events (dashboard-events.ts, interface DashboardEvent) *)

Inductive EventType :=
  | container_spawn
  | container_complete
  | agent_event
  | message_received
  | message_sent.

(** [data : unknown]: the payload is opaque, hence a type parameter. *)
Record DashboardEvent (Data : Type) := mkDashboardEvent {
  type : EventType;
  timestamp : string;
  groupFolder : option string;
  chatJid : option string;
  data : Data
}.
Arguments mkDashboardEvent {Data}.
Arguments type {Data}.
Arguments timestamp {Data}.
Arguments groupFolder {Data}.
Arguments chatJid {Data}.
Arguments data {Data}.

(** ** Calls that may throw *)

Inductive Outcome (W : Type) :=
  | Normal (w : W)
  | Throw (err : string) (w : W).
Arguments Normal {W}.
Arguments Throw {W}.

Definition returns {W} (o : Outcome W) : bool :=
  match o with Normal _ => true | Throw _ _ => false end.

Definition state_of {W} (o : Outcome W) : W :=
  match o with Normal w => w | Throw _ w => w end.

(** ** Arrays as lists *)

Section Arrays.
Context {A : Type}.

(** [a.push(x)] *)
Definition Array_push (a : list A) (x : A) : list A := a ++ [x].

(** [a.shift()]: the array without its first element (nothing to remove
    from an empty array). *)
Definition Array_shift (a : list A) : list A :=
  match a with
  | [] => []
  | _ :: a' => a'
  end.

(** The last [k] elements of a list, in order. *)
Definition lastn (k : nat) (l : list A) : list A := drop (length l - k) l.

End Arrays.

(** ** The emitter (dashboard-events.ts, class DashboardEventEmitter)

    [World] is the state the listeners act on (for the dashboard server:
    the WebSocket objects). A listener is a function object: [lid] is its
    identity (what [===] compares) and [call] its body. Listeners do not
    call back into the emitter; the only listener of the program,
    [handler] below, does not. *)

Section Emitter.
Variables Data World : Type.

Record Listener := mkListener {
  lid : nat;
  call : DashboardEvent Data → World → Outcome World
}.

Record DashboardEventEmitter := mkEmitter {
  recentEvents : list (DashboardEvent Data);
  maxEvents : nat;
  listeners : list Listener   (* EventEmitter: the listeners of 'dashboard' *)
}.

(** [new DashboardEventEmitter()]: the field initialisers of the class. *)
Definition new_DashboardEventEmitter : DashboardEventEmitter :=
  {| recentEvents := []; maxEvents := 100; listeners := [] |}.

(** [EventEmitter.on(name, f)] appends [f] to the listener array, with no
    check for a listener that is already there. *)
Definition on (f : Listener) (bus : DashboardEventEmitter) : DashboardEventEmitter :=
  {| recentEvents := recentEvents bus;
     maxEvents := maxEvents bus;
     listeners := listeners bus ++ [f] |}.

(** [EventEmitter.off(name, f)] scans the listener array from its end and
    removes the first match it meets, that is the most recently added
    instance of [f]; without a match the array is left as it is. *)
Fixpoint remove_last (i : nat) (ls : list Listener) : list Listener :=
  match ls with
  | [] => []
  | l :: ls' =>
      if bool_decide (i ∈ lid <$> ls') then l :: remove_last i ls'
      else if bool_decide (lid l = i) then ls'
      else l :: ls'
  end.

Definition off (f : Listener) (bus : DashboardEventEmitter) : DashboardEventEmitter :=
  {| recentEvents := recentEvents bus;
     maxEvents := maxEvents bus;
     listeners := remove_last (lid f) (listeners bus) |}.

(** [EventEmitter.emit(name, e)]: the listeners are called one after the
    other in array order; an exception thrown by one of them leaves [emit]
    at once and the later listeners are not called. The first component
    records the calls made: which listener, with which argument. *)
Fixpoint emit (ls : list Listener) (e : DashboardEvent Data) (w : World)
  : list (nat * DashboardEvent Data) * Outcome World :=
  match ls with
  | [] => ([], Normal w)
  | l :: ls' =>
      match call l e w with
      | Normal w' => let r := emit ls' e w' in ((lid l, e) :: r.1, r.2)
      | Throw x w' => ([(lid l, e)], Throw x w')
      end
  end.

(** The buffer part of [emitDashboard]: push, then shift when the length
    exceeds [maxEvents]. *)
Definition retain (maxEvents : nat) (recent : list (DashboardEvent Data))
    (event : DashboardEvent Data) : list (DashboardEvent Data) :=
  let recent := Array_push recent event in
  if maxEvents <? length recent then Array_shift recent else recent.

Record Emitted := mkEmitted {
  emitter_after : DashboardEventEmitter;
  invoked : list (nat * DashboardEvent Data);
  outcome : Outcome World
}.

(** [emitDashboard(event): void] *)
Definition emitDashboard (event : DashboardEvent Data)
    (bus : DashboardEventEmitter) (w : World) : Emitted :=
  let bus' := {| recentEvents := retain (maxEvents bus) (recentEvents bus) event;
                 maxEvents := maxEvents bus;
                 listeners := listeners bus |} in
  let r := emit (listeners bus') event w in
  {| emitter_after := bus'; invoked := r.1; outcome := r.2 |}.

(** [getRecentEvents()]: [[...this.recentEvents]], a new array with the
    same elements. *)
Definition getRecentEvents (bus : DashboardEventEmitter) : list (DashboardEvent Data) :=
  recentEvents bus.

(** *** Runs of the emitter

    What its clients can do with the emitter, and the state a sequence of
    such operations leads to. [calls] is a record of every listener call
    made so far. An exception of [emitDashboard] reaches the producer; the
    emitter and the world stay as the throwing call left them. *)

Inductive BusOp :=
  | OpPublish (event : DashboardEvent Data)
  | OpOn (f : Listener)
  | OpOff (f : Listener).

Record BusState := mkBusState {
  emitter : DashboardEventEmitter;
  world : World;
  calls : list (nat * DashboardEvent Data)
}.

Definition busStep (s : BusState) (op : BusOp) : BusState :=
  match op with
  | OpPublish event =>
      let r := emitDashboard event (emitter s) (world s) in
      {| emitter := emitter_after r;
         world := state_of (outcome r);
         calls := calls s ++ invoked r |}
  | OpOn f => {| emitter := on f (emitter s); world := world s; calls := calls s |}
  | OpOff f => {| emitter := off f (emitter s); world := world s; calls := calls s |}
  end.

Definition busRun (ops : list BusOp) (s : BusState) : BusState :=
  fold_left busStep ops s.

(** The events published by a sequence of operations, in order. *)
Definition publishedBy (ops : list BusOp) : list (DashboardEvent Data) :=
  omap (λ op, match op with OpPublish event => Some event | _ => None end) ops.

(** The identities of the listeners a sequence of operations registers. *)
Definition registeredBy (ops : list BusOp) : list nat :=
  omap (λ op, match op with OpOn f => Some (lid f) | _ => None end) ops.

End Emitter.

Arguments mkListener {Data World}.
Arguments lid {Data World}.
Arguments call {Data World}.
Arguments mkEmitter {Data World}.
Arguments recentEvents {Data World}.
Arguments maxEvents {Data World}.
Arguments listeners {Data World}.
Arguments new_DashboardEventEmitter {Data World}.
Arguments on {Data World}.
Arguments remove_last {Data World}.
Arguments off {Data World}.
Arguments emit {Data World}.
Arguments retain {Data}.
Arguments emitter_after {Data World}.
Arguments invoked {Data World}.
Arguments outcome {Data World}.
Arguments emitDashboard {Data World}.
Arguments getRecentEvents {Data World}.
Arguments OpPublish {Data World}.
Arguments OpOn {Data World}.
Arguments OpOff {Data World}.
Arguments mkBusState {Data World}.
Arguments emitter {Data World}.
Arguments world {Data World}.
Arguments calls {Data World}.
Arguments busStep {Data World}.
Arguments busRun {Data World}.
Arguments publishedBy {Data World}.
Arguments registeredBy {Data World}.

(** [export const dashboardEvents = new DashboardEventEmitter()] *)
Definition dashboardEvents {Data World} : DashboardEventEmitter Data World :=
  new_DashboardEventEmitter.

(** ** The dashboard server (dashboard-server.ts, startDashboardServer)

    Only the WebSocket part is modelled: the callback of
    [wss.on('connection', ...)], the [handler] it creates and the callback
    of [ws.on('close', ...)]. *)

(** [ws.readyState] *)
Inductive ReadyState := CONNECTING | OPEN | CLOSING | CLOSED.

#[global] Instance ReadyState_eq_dec : EqDecision ReadyState.
Proof. solve_decision. Defined.

(** The two objects the server serialises:
    [{ type: 'history', events: recent }] and [{ type: 'event', event }]. *)
Inductive Message (Data : Type) :=
  | History (events : list (DashboardEvent Data))
  | Live (event : DashboardEvent Data).
Arguments History {Data}.
Arguments Live {Data}.

(** A WebSocket object of the ws library, as far as the server uses it.
    [sendCalls] keeps every call of [ws.send] with the [readyState] the
    socket had at that moment; [closeListener] tells whether
    [ws.on('close', ...)] has been executed. *)
Record WebSocket := mkWebSocket {
  readyState : ReadyState;
  sendCalls : list (ReadyState * string);
  closeListener : bool
}.

(** [ws.send(data)] with no callback. The library throws on a socket that
    is still CONNECTING; on a CLOSING or CLOSED socket the data is
    discarded without an error; on an OPEN socket it is written out. *)
Definition ws_send (data : string) (ws : WebSocket) : Outcome WebSocket :=
  let ws' := {| readyState := readyState ws;
                sendCalls := sendCalls ws ++ [(readyState ws, data)];
                closeListener := closeListener ws |} in
  match readyState ws with
  | CONNECTING => Throw "WebSocket is not open: readyState 0 (CONNECTING)" ws'
  | _ => Normal ws'
  end.

(** What the peer gets: the data of the calls made while the socket was OPEN. *)
Definition received (ws : WebSocket) : list string :=
  omap (λ p : ReadyState * string, if decide (p.1 = OPEN) then Some p.2 else None)
       (sendCalls ws).

(** Every [send] on this socket was made while it was OPEN. *)
Definition guarded (ws : WebSocket) : Prop :=
  Forall (λ p : ReadyState * string, p.1 = OPEN) (sendCalls ws).

(** Writing the outcome of a call on socket [c] back to the store. *)
Definition store_socket (c : nat) (o : Outcome WebSocket) (σ : gmap nat WebSocket)
  : Outcome (gmap nat WebSocket) :=
  match o with
  | Normal ws => Normal (<[c:=ws]> σ)
  | Throw x ws => Throw x (<[c:=ws]> σ)
  end.

(** The text [JSON.stringify] gives for the two objects, from the texts of
    the events in them: [{"type":"history","events":[e1,e2,...]}] and
    [{"type":"event","event":e}]. *)
Definition quoted (s : string) : string :=
  String "034" EmptyString +:+ s +:+ String "034" EmptyString.

Definition history_frame (events : list string) : string :=
  "{" +:+ quoted "type" +:+ ":" +:+ quoted "history" +:+ ","
      +:+ quoted "events" +:+ ":[" +:+ String.concat "," events +:+ "]}".

Definition event_frame (event : string) : string :=
  "{" +:+ quoted "type" +:+ ":" +:+ quoted "event" +:+ ","
      +:+ quoted "event" +:+ ":" +:+ event +:+ "}".

Section Server.
Variable Data : Type.

(** [JSON.stringify(event)]: the text of an event, or [None] when
    [JSON.stringify] throws on it, as it does for a payload that has a
    cycle or a BigInt in it ([data] is [unknown]). *)
Variable JSON_stringify_event : DashboardEvent Data → option string.

(** An event that [JSON.stringify] accepts. *)
Definition serialisable (event : DashboardEvent Data) : Prop :=
  is_Some (JSON_stringify_event event).

(** [JSON.stringify(message)]: it throws when it throws on one of the
    events of the message. *)
Definition JSON_stringify (m : Message Data) : option string :=
  match m with
  | History events => history_frame <$> mapM JSON_stringify_event events
  | Live event => event_frame <$> JSON_stringify_event event
  end.

(** The closure [handler] created for the socket [ws]:
<<
    const handler = (event) => {
      if (ws.readyState === WebSocket.OPEN) {
        ws.send(JSON.stringify({ type: 'event', event }));
      }
    };
>>
    A closure is created per connection, so the socket identifies it. The
    argument of [send] is evaluated first: when [JSON.stringify] throws,
    [send] is not called and the exception leaves the handler. *)
Definition handler (ws : nat) : Listener Data (gmap nat WebSocket) :=
  {| lid := ws;
     call := λ event σ,
       match σ !! ws with
       | Some sock =>
           if decide (readyState sock = OPEN)
           then match JSON_stringify (Live event) with
                | Some data => store_socket ws (ws_send data sock) σ
                | None => Throw "TypeError" σ
                end
           else Normal σ
       | None => Normal σ
       end |}.

(** What a call of [handler] does to its socket. *)
Definition deliver (event : DashboardEvent Data) (sock : WebSocket) : WebSocket :=
  if decide (readyState sock = OPEN)
  then match JSON_stringify (Live event) with
       | Some data => state_of (ws_send data sock)
       | None => sock
       end
  else sock.

Record Server := mkServer {
  bus : DashboardEventEmitter Data (gmap nat WebSocket);
  sockets : gmap nat WebSocket
}.

(** The callback of [wss.on('connection', (ws) => ...)], for the socket
    stored at [ws]. An exception of [JSON.stringify] or of the first
    [send] leaves the callback before anything is registered. *)
Definition onConnection (ws : nat) (s : Server) : Outcome Server :=
  match sockets s !! ws with
  | None => Normal s
  | Some sock =>
      let recent := getRecentEvents (bus s) in
      match JSON_stringify (History recent) with
      | None => Throw "TypeError" s
      | Some data =>
          match ws_send data sock with
          | Throw x sock' =>
              Throw x {| bus := bus s; sockets := <[ws:=sock']> (sockets s) |}
          | Normal sock' =>
              Normal {| bus := on (handler ws) (bus s);
                        sockets := <[ws := {| readyState := readyState sock';
                                              sendCalls := sendCalls sock';
                                              closeListener := true |}]> (sockets s) |}
          end
      end
  end.

(** The callback of [ws.on('close', () => ...)]. *)
Definition onClose (ws : nat) (s : Server) : Server :=
  {| bus := off (handler ws) (bus s); sockets := sockets s |}.

(** *** Runs of the server

    What happens to the server from outside: a producer publishes, a viewer
    connects (the library hands over a new socket, OPEN), a socket starts
    closing, a socket is closed (the library sets CLOSED and emits 'close',
    once per socket). An exception of a callback reaches its caller; the
    server goes on from the state the callback left (a process that is
    ended by the exception has no further step to take). *)
Inductive Input :=
  | Publish (event : DashboardEvent Data)
  | Connect
  | BeginClose (ws : nat)
  | Close (ws : nat).

(** The socket the next [Connect] creates. *)
Definition nextSocket (s : Server) : nat := fresh (dom (sockets s)).

Definition step (s : Server) (i : Input) : Server :=
  match i with
  | Publish event =>
      let r := emitDashboard event (bus s) (sockets s) in
      {| bus := emitter_after r; sockets := state_of (outcome r) |}
  | Connect =>
      let ws := nextSocket s in
      let sock := {| readyState := OPEN; sendCalls := []; closeListener := false |} in
      state_of (onConnection ws {| bus := bus s; sockets := <[ws:=sock]> (sockets s) |})
  | BeginClose ws =>
      match sockets s !! ws with
      | Some sock =>
          if decide (readyState sock = OPEN)
          then {| bus := bus s;
                  sockets := <[ws := {| readyState := CLOSING;
                                        sendCalls := sendCalls sock;
                                        closeListener := closeListener sock |}]> (sockets s) |}
          else s
      | None => s
      end
  | Close ws =>
      match sockets s !! ws with
      | Some sock =>
          if decide (readyState sock = CLOSED) then s
          else
            let s' := {| bus := bus s;
                         sockets := <[ws := {| readyState := CLOSED;
                                               sendCalls := sendCalls sock;
                                               closeListener := closeListener sock |}]> (sockets s) |} in
            if closeListener sock then onClose ws s' else s'
      | None => s
      end
  end.

Definition run (inputs : list Input) (s : Server) : Server :=
  fold_left step inputs s.

(** [startDashboardServer()]: no socket yet, the emitter as exported. *)
Definition startDashboardServer : Server :=
  {| bus := dashboardEvents; sockets := ∅ |}.

(** The events published by a sequence of inputs, in order. *)
Definition published (inputs : list Input) : list (DashboardEvent Data) :=
  omap (λ i, match i with Publish event => Some event | _ => None end) inputs.

(** The inputs that close, or start closing, socket [ws]. *)
Definition closes (ws : nat) (i : Input) : bool :=
  match i with
  | BeginClose ws' | Close ws' => bool_decide (ws' = ws)
  | _ => false
  end.

(** What the viewer behind socket [ws] has got so far. *)
Definition receivedBy (ws : nat) (s : Server) : list string :=
  match sockets s !! ws with
  | Some sock => received sock
  | None => []
  end.

(** The states the server can be in: the listeners of the emitter are
    handlers of distinct sockets, each of which exists, has its 'close'
    listener in place and has not been closed. *)
Definition consistent (s : Server) : Prop :=
  NoDup (lid <$> listeners (bus s)) ∧
  ∀ f, f ∈ listeners (bus s) →
    f = handler (lid f) ∧
    ∃ sock, sockets s !! lid f = Some sock ∧
            closeListener sock = true ∧ readyState sock ≠ CLOSED.

(** The calls of [send] on a socket form a window on the sequence [P] of
    the events published so far: the history [h], at most 100 events and as
    many as there were, then the events [evs] that followed it, up to the
    present while the socket is OPEN. *)
Definition window (P : list (DashboardEvent Data)) (sock : WebSocket) : Prop :=
  ∃ a h evs b history live,
    P = a ++ h ++ evs ++ b ∧
    length h ≤ 100 ∧
    (a = [] ∨ length h = 100) ∧
    JSON_stringify (History h) = Some history ∧
    mapM (λ e, JSON_stringify (Live e)) evs = Some live ∧
    sendCalls sock = (OPEN, history) :: ((λ m, (OPEN, m)) <$> live) ∧
    (readyState sock = OPEN → b = []).

End Server.

Arguments serialisable {Data}.
Arguments JSON_stringify {Data}.
Arguments handler {Data}.
Arguments window {Data}.
Arguments deliver {Data}.
Arguments consistent {Data}.
Arguments mkServer {Data}.
Arguments bus {Data}.
Arguments sockets {Data}.
Arguments onConnection {Data}.
Arguments onClose {Data}.
Arguments Publish {Data}.
Arguments Connect {Data}.
Arguments BeginClose {Data}.
Arguments Close {Data}.
Arguments nextSocket {Data}.
Arguments step {Data}.
Arguments run {Data}.
Arguments startDashboardServer {Data}.
Arguments published {Data}.
Arguments closes {Data}.
Arguments receivedBy {Data}.

(** ** Arrays as objects

    The same buffer code with the arrays kept in a store of mutable
    objects: [this.recentEvents] is a reference, [push] and [shift] update
    the object in place and [[...a]] allocates a new object. The listeners
    are handed the event, never the array, so [emit] has no part in this. *)

Module ArrayStore.
Section Store.
Variable Data : Type.

Record Emitter := mkEmitter {
  recentEvents : nat;    (* the reference held in the private field *)
  maxEvents : nat
}.

(** [a.push(x)] *)
Definition push (a : nat) (x : DashboardEvent Data)
    (h : gmap nat (list (DashboardEvent Data))) : gmap nat (list (DashboardEvent Data)) :=
  alter (λ l, Array_push l x) a h.

(** [a.shift()] *)
Definition shift (a : nat)
    (h : gmap nat (list (DashboardEvent Data))) : gmap nat (list (DashboardEvent Data)) :=
  alter Array_shift a h.

(** [a.length] *)
Definition length_of (a : nat) (h : gmap nat (list (DashboardEvent Data))) : nat :=
  match h !! a with
  | Some l => length l
  | None => 0
  end.

(** [[...a]]: a new array object with the elements of [a]. *)
Definition spread (a : nat) (h : gmap nat (list (DashboardEvent Data)))
  : nat * gmap nat (list (DashboardEvent Data)) :=
  let r := fresh (dom h) in
  (r, <[r := default [] (h !! a)]> h).

Definition emitDashboard (event : DashboardEvent Data) (this : Emitter)
    (h : gmap nat (list (DashboardEvent Data))) : gmap nat (list (DashboardEvent Data)) :=
  let h := push (recentEvents this) event h in
  if maxEvents this <? length_of (recentEvents this) h
  then shift (recentEvents this) h
  else h.

Definition getRecentEvents (this : Emitter)
    (h : gmap nat (list (DashboardEvent Data)))
  : nat * gmap nat (list (DashboardEvent Data)) :=
  spread (recentEvents this) h.

Definition publishAll (events : list (DashboardEvent Data)) (this : Emitter)
    (h : gmap nat (list (DashboardEvent Data))) : gmap nat (list (DashboardEvent Data)) :=
  fold_left (λ h event, emitDashboard event this h) events h.

End Store.

Arguments recentEvents : clear implicits.
Arguments maxEvents : clear implicits.
Arguments push {Data}.
Arguments shift {Data}.
Arguments length_of {Data}.
Arguments spread {Data}.
Arguments emitDashboard {Data}.
Arguments getRecentEvents {Data}.
Arguments publishAll {Data}.
End ArrayStore.

(** ** Telegram chat ids and JIDs (telegram.ts)

    A JavaScript string is a [string] whose characters are its code units
    (code units below 256). A chat id is an integer-valued [number]; it is
    represented by the integer itself, which is exact for the safe
    integers. *)

(** [Number.isSafeInteger(n)] *)
Definition Number_isSafeInteger (n : Z) : Prop := (Z.abs n ≤ 2 ^ 53 - 1)%Z.

(** The string of an integer-valued number inside a template literal: its
    decimal digits, after a minus sign when it is negative (so it is for
    magnitudes below 10^21, the safe integers among them). *)
Definition Number_toString (n : Z) : string := pretty n.

(** [s.endsWith(t)] *)
Fixpoint String_endsWith (s t : string) : bool :=
  if String.eqb s t then true
  else match s with
       | EmptyString => false
       | String _ s' => String_endsWith s' t
       end.

Fixpoint String_drop (n : nat) (s : string) : string :=
  match n, s with
  | S n', String _ s' => String_drop n' s'
  | _, _ => s
  end.

(** [s.replace(pattern, replacement)] for a string [pattern]: the first
    occurrence of [pattern] is replaced (the replacement of the program,
    the empty string, has no [$] in it). *)
Fixpoint String_replace (s pattern replacement : string) : string :=
  if String.prefix pattern s
  then replacement +:+ String_drop (String.length pattern) s
  else match s with
       | EmptyString => EmptyString
       | String c s' => String c (String_replace s' pattern replacement)
       end.

(** White space and line terminators among the code units below 256:
    TAB, LF, VT, FF, CR, SP and NBSP. *)
Definition isWhiteSpace (c : ascii) : bool :=
  let n := nat_of_ascii c in
  ((9 <=? n) && (n <=? 13)) || (n =? 32) || (n =? 160).

Fixpoint trimStart (s : string) : string :=
  match s with
  | String c s' => if isWhiteSpace c then trimStart s' else s
  | EmptyString => EmptyString
  end.

Definition digit (c : ascii) : option N :=
  let n := N_of_ascii c in
  if ((48 <=? n) && (n <=? 57))%N then Some (n - 48)%N else None.

(** The longest prefix made of decimal digits. *)
Fixpoint digitPrefix (s : string) : string :=
  match s with
  | String c s' =>
      match digit c with
      | Some _ => String c (digitPrefix s')
      | None => EmptyString
      end
  | EmptyString => EmptyString
  end.

(** The integer a string of decimal digits denotes. *)
Fixpoint digitsValue (acc : N) (s : string) : N :=
  match s with
  | String c s' => digitsValue (10 * acc + default 0%N (digit c)) s'
  | EmptyString => acc
  end.

(** [parseInt(s, 10)]; [None] is NaN. Leading white space is skipped, one
    sign is read, then the longest run of digits; what follows is ignored.
    The result is the integer read, which is the number JavaScript returns
    whenever that integer is a safe integer. *)
Definition parseInt_10 (s : string) : option Z :=
  let s := trimStart s in
  let sign := match s with String "-" _ => (-1)%Z | _ => 1%Z end in
  let s := match s with
           | String "-" s' => s'
           | String "+" s' => s'
           | _ => s
           end in
  let z := digitPrefix s in
  match z with
  | EmptyString => None
  | _ => Some (sign * Z.of_N (digitsValue 0 z))%Z
  end.

(** [telegramChatIdToJid(chatId)]: [`${chatId}@telegram`] *)
Definition telegramChatIdToJid (chatId : Z) : string :=
  Number_toString chatId +:+ "@telegram".

(** [jidToTelegramChatId(jid)]; [None] is [null]. *)
Definition jidToTelegramChatId (jid : string) : option Z :=
  if negb (String_endsWith jid "@telegram") then None
  else
    let id := parseInt_10 (String_replace jid "@telegram" "") in
    match id with
    | None => None       (* isNaN(id) *)
    | Some n => Some n
    end.

(** ** The Telegram channel (telegram.ts): sending

    The module variable [bot] is [null] or the bot object; a function that
    reads it takes it as an argument. A call of the Bot API returns a
    promise; [reply] tells how it settles: [None] when it resolves,
    [Some err] when it rejects with [err]. *)

(** [new TelegramBot(token, { polling: true })] *)
Record TelegramBot := mkTelegramBot {
  token : string;
  polling : bool
}.

Inductive BotCall :=
  | sendMessage (chatId : Z) (text : string)
  | sendChatAction (chatId : Z) (action : string).

Inductive LogLevel := LevelError | LevelInfo | LevelDebug.

(** A call of the logger: level, merged fields (rendered), message. *)
Record LogLine := mkLogLine {
  level : LogLevel;
  fields : list (string * string);
  message : string
}.

Record Sent := mkSent {
  botCalls : list BotCall;
  logged : list LogLine
}.

(** [await bot.method(...)] *)
Definition await_call (call : BotCall) (reply : option string) : Outcome (list BotCall) :=
  match reply with
  | None => Normal [call]
  | Some err => Throw err [call]
  end.

(** [sendTelegramMessage(jid, text)] *)
Definition sendTelegramMessage (bot : option TelegramBot) (jid text : string)
    (reply : option string) : Outcome Sent :=
  match bot with
  | None =>
      Normal {| botCalls := [];
                logged := [mkLogLine LevelError [] "Telegram bot not initialized"] |}
  | Some _ =>
      match jidToTelegramChatId jid with
      | None =>
          Normal {| botCalls := [];
                    logged := [mkLogLine LevelError [("jid", jid)] "Invalid Telegram JID"] |}
      | Some chatId =>
          match await_call (sendMessage chatId text) reply with
          | Normal calls =>
              Normal {| botCalls := calls;
                        logged := [mkLogLine LevelInfo
                                     [("chatId", Number_toString chatId);
                                      ("length", pretty (String.length text))]
                                     "Telegram message sent"] |}
          | Throw err calls =>           (* catch (err) *)
              Normal {| botCalls := calls;
                        logged := [mkLogLine LevelError
                                     [("chatId", Number_toString chatId); ("err", err)]
                                     "Failed to send Telegram message"] |}
          end
      end
  end.

(** [setTelegramTyping(jid, isTyping)] *)
Definition setTelegramTyping (bot : option TelegramBot) (jid : string) (isTyping : bool)
    (reply : option string) : Outcome Sent :=
  match bot with
  | None => Normal {| botCalls := []; logged := [] |}
  | Some _ =>
      if negb isTyping then Normal {| botCalls := []; logged := [] |}
      else
        match jidToTelegramChatId jid with
        | None => Normal {| botCalls := []; logged := [] |}
        | Some chatId =>
            match await_call (sendChatAction chatId "typing") reply with
            | Normal calls => Normal {| botCalls := calls; logged := [] |}
            | Throw err calls =>         (* catch (err) *)
                Normal {| botCalls := calls;
                          logged := [mkLogLine LevelDebug
                                       [("chatId", Number_toString chatId); ("err", err)]
                                       "Failed to send typing action"] |}
            end
        end
  end.

(** A string operand of [||], [!] or [? :]: [undefined] and the empty
    string are falsy. *)
Definition truthy (s : option string) : option string :=
  match s with
  | Some (String c s') => Some (String c s')
  | _ => None
  end.

(** [a || b] with a string [b] *)
Definition or_else (a : option string) (b : string) : string :=
  match truthy a with
  | Some s => s
  | None => b
  end.

(** [connectTelegram(callbacks)], as far as [bot] goes: the new value of
    the module variable and the value returned. [env_token] is
    [process.env.TELEGRAM_BOT_TOKEN]. *)
Definition connectTelegram (env_token : option string) (bot : option TelegramBot)
  : option TelegramBot * option TelegramBot :=
  match truthy env_token with
  | None => (bot, None)
  | Some token =>
      let bot := Some {| token := token; polling := true |} in
      (bot, bot)
  end.

(** [isTelegramConnected()] *)
Definition isTelegramConnected (bot : option TelegramBot) : bool :=
  match bot with
  | Some _ => true
  | None => false
  end.

(** ** The Telegram channel: incoming messages

    The listener of [bot.on('message', ...)]. What it does is recorded as
    the sequence of its calls to the database module and to the callbacks,
    each taken to return. *)

(** The objects of node-telegram-bot-api, as far as the listener reads
    them. *)
Record User := mkUser {
  user_id : Z;
  user_first_name : string;
  user_username : option string
}.

Record Chat := mkChat {
  chat_id : Z;
  chat_title : option string;
  chat_username : option string;
  chat_first_name : option string
}.

Record PhotoSize := mkPhotoSize {
  file_id : string
}.

Record TelegramMessage := mkTelegramMessage {
  message_id : Z;
  msg_from : option User;
  msg_date : Z;
  msg_chat : Chat;
  msg_text : option string;
  msg_photo : option (list PhotoSize);
  msg_caption : option string
}.

(** The second argument of [callbacks.onMessage]. *)
Record NewMessage := mkNewMessage {
  nm_id : string;
  nm_sender : string;
  nm_senderName : string;
  nm_content : string;
  nm_timestamp : string
}.

Inductive Effect :=
  | storeChatMetadata (jid timestamp name : string)
  | storeGenericMessage (id jid sender senderName content timestamp : string)
      (isFromMe : bool) (source : string)
  | onMessage (chatId : string) (message : NewMessage)
  | writeImage (fileId : string).

(** How the download of a photo ends: the file is written, Telegram gives
    no [file_path], or something in the [try] block throws. *)
Inductive Download :=
  | Downloaded
  | NoFilePath
  | DownloadFailed (errorMsg : string).

Section Incoming.
(** [RegisteredGroup] (types.ts) *)
Variable Group : Type.
(** [new Date(ms).toISOString()] *)
Variable Date_toISOString : Z → string.

Definition sender_of (msg : TelegramMessage) : string :=
  or_else ((λ u, Number_toString (user_id u)) <$> msg_from msg) "".

Definition senderName_of (msg : TelegramMessage) : string :=
  or_else (user_first_name <$> msg_from msg)
    (or_else (msg_from msg ≫= user_username) (sender_of msg)).

Definition chatName_of (msg : TelegramMessage) : string :=
  or_else (chat_title (msg_chat msg))
    (or_else (chat_username (msg_chat msg))
       (or_else (chat_first_name (msg_chat msg))
          (telegramChatIdToJid (chat_id (msg_chat msg))))).

(** What the listener does for a registered chat: store the message, then
    notify the application. *)
Definition deliverMessage (msg : TelegramMessage) (content : string) : list Effect :=
  let jid := telegramChatIdToJid (chat_id (msg_chat msg)) in
  let timestamp := Date_toISOString (msg_date msg * 1000)%Z in
  [ storeGenericMessage (Number_toString (message_id msg)) jid
      (sender_of msg) (senderName_of msg) content timestamp false "telegram";
    onMessage jid {| nm_id := Number_toString (message_id msg);
                     nm_sender := sender_of msg;
                     nm_senderName := senderName_of msg;
                     nm_content := content;
                     nm_timestamp := timestamp |} ].

(** The listener of telegram.ts: text messages only. *)
Definition onTextMessage (registeredGroups : gmap string Group) (msg : TelegramMessage)
  : list Effect :=
  match truthy (msg_text msg) with
  | None => []
  | Some text =>
      let jid := telegramChatIdToJid (chat_id (msg_chat msg)) in
      let timestamp := Date_toISOString (msg_date msg * 1000)%Z in
      storeChatMetadata jid timestamp (chatName_of msg)
        :: match registeredGroups !! jid with
           | Some _ => deliverMessage msg text
           | None => []
           end
  end.

(** [msg.caption ? '\n' + msg.caption : ''] *)
Definition caption_of (msg : TelegramMessage) : string :=
  match truthy (msg_caption msg) with
  | Some caption => String "010" caption
  | None => ""
  end.

(** The content of a message with photos, the last of which has the
    highest resolution. *)
Definition photoContent (msg : TelegramMessage) (photo : PhotoSize) (download : Download)
  : string :=
  match download with
  | Downloaded =>
      "[Image: /workspace/group/images/" +:+ file_id photo +:+ ".jpg]" +:+ caption_of msg
  | NoFilePath => "[Image - no file path]" +:+ caption_of msg
  | DownloadFailed errorMsg =>
      "[Image - download failed: " +:+ errorMsg +:+ "]" +:+ caption_of msg
  end.

(** The listener of the later telegram.ts, which also takes photos. *)
Definition onMessageOrPhoto (registeredGroups : gmap string Group) (msg : TelegramMessage)
    (download : Download) : list Effect :=
  let jid := telegramChatIdToJid (chat_id (msg_chat msg)) in
  let timestamp := Date_toISOString (msg_date msg * 1000)%Z in
  let photos := default [] (msg_photo msg) in
  let written :=
    match last photos, download with
    | Some photo, Downloaded => [writeImage (file_id photo)]
    | _, _ => []
    end in
  let content :=
    match last photos with
    | Some photo => photoContent msg photo download
    | None => or_else (msg_text msg) ""
    end in
  storeChatMetadata jid timestamp (chatName_of msg)
    :: written
    ++ match content with
       | EmptyString => []
       | _ =>
           match registeredGroups !! jid with
           | Some _ => deliverMessage msg content
           | None => []
           end
       end.

End Incoming.

Arguments sender_of : clear implicits.
Arguments senderName_of : clear implicits.
Arguments chatName_of : clear implicits.
Arguments deliverMessage : clear implicits.
Arguments onTextMessage {Group}.
Arguments caption_of : clear implicits.
Arguments photoContent : clear implicits.
Arguments onMessageOrPhoto {Group}.

(** ** Sample data for the concrete runs *)

Definition ev (n : nat) : DashboardEvent nat :=
  {| type := message_received;
     timestamp := "2026-01-01T00:00:00.000Z";
     groupFolder := None;
     chatJid := Some "12345@telegram";
     data := n |}.

(** A stand-in for [JSON.stringify] on events: the payload alone is
    written, and the payload 13 is one it throws on. *)
Definition sample_stringify (event : DashboardEvent nat) : option string :=
  if decide (data event = 13) then None else Some (pretty (data event)).

(** A listener that appends its identity to a log, and one that throws. *)
Definition logging (i : nat) : Listener nat (list nat) :=
  {| lid := i; call := λ _ w, Normal (w ++ [i]) |}.

Definition failing (i : nat) : Listener nat (list nat) :=
  {| lid := i; call := λ _ w, Throw "listener failed" w |}.

Definition sample_bot : TelegramBot := {| token := "123456:token"; polling := true |}.

(** A stand-in for [toISOString]. *)
Definition sample_date (ms : Z) : string := "ms " +:+ pretty ms.

(** A message from Ada in a group chat. *)
Definition sample_message (text : option string) (photo : option (list PhotoSize))
  : TelegramMessage :=
  {| message_id := 42;
     msg_from := Some {| user_id := 777; user_first_name := "Ada"; user_username := None |};
     msg_date := 1767225600;
     msg_chat := {| chat_id := -1001234567890;
                    chat_title := Some "Family";
                    chat_username := None;
                    chat_first_name := None |};
     msg_text := text;
     msg_photo := photo;
     msg_caption := Some "look" |}.

Definition sample_groups : gmap string nat := {[ "-1001234567890@telegram" := 1 ]}.

(** * Properties *)

(** ** The retained buffer *)

Section BufferFacts.
Context {A : Type}.
Implicit Types (l : list A) (k : nat).

Lemma lastn_length l k : length (lastn k l) = min (length l) k.
Proof. unfold lastn. rewrite length_drop. lia. Qed.

Lemma lastn_all l k : length l ≤ k → lastn k l = l.
Proof. intros. unfold lastn. by replace (length l - k) with 0 by lia. Qed.

Lemma lastn_min l k : lastn (min (length l) k) l = lastn k l.
Proof. unfold lastn. f_equal. lia. Qed.

Lemma lastn_snoc l k x : lastn k (lastn k l ++ [x]) = lastn k (l ++ [x]).
Proof.
  destruct (decide (length l ≤ k)) as [Hle|Hgt].
  { by rewrite (lastn_all l k). }
  unfold lastn. rewrite !length_app, length_drop. simpl.
  destruct (decide (k = 0)) as [->|Hk].
  { rewrite !drop_ge; [done|rewrite length_app; simpl; lia|].
    rewrite length_app, length_drop. simpl. lia. }
  rewrite !drop_app_le by (rewrite ?length_drop; lia).
  rewrite drop_drop. do 2 f_equal. lia.
Qed.

End BufferFacts.

Section EmitterFacts.
Context {Data World : Type}.
Implicit Types (bus : DashboardEventEmitter Data World) (s : BusState Data World).
Implicit Types (e : DashboardEvent Data) (ops : list (BusOp Data World)).

Lemma retain_below cap (recent : list (DashboardEvent Data)) e :
  length recent < cap → retain cap recent e = recent ++ [e].
Proof.
  intros Hlt. unfold retain, Array_push.
  destruct (Nat.ltb_spec cap (length (recent ++ [e]))) as [H|H]; [|done].
  rewrite length_app in H. simpl in H. lia.
Qed.

Lemma retain_full cap (recent : list (DashboardEvent Data)) e :
  length recent = cap → retain cap recent e = drop 1 (recent ++ [e]).
Proof.
  intros Heq. unfold retain, Array_push.
  destruct (Nat.ltb_spec cap (length (recent ++ [e]))) as [H|H].
  - by destruct (recent ++ [e]).
  - rewrite length_app in H. simpl in H. lia.
Qed.

Lemma retain_lastn cap (recent : list (DashboardEvent Data)) e :
  length recent ≤ cap → retain cap recent e = lastn cap (recent ++ [e]).
Proof.
  intros Hle. destruct (decide (length recent = cap)) as [Heq|Hne].
  - rewrite retain_full by done. unfold lastn. f_equal.
    rewrite length_app. simpl. lia.
  - rewrite retain_below by lia. symmetry. apply lastn_all.
    rewrite length_app. simpl. lia.
Qed.

Lemma busRun_snoc ops op s : busRun (ops ++ [op]) s = busStep (busRun ops s) op.
Proof. unfold busRun. by rewrite fold_left_app. Qed.

Lemma publishedBy_snoc ops (op : BusOp Data World) :
  publishedBy (ops ++ [op]) =
  publishedBy ops ++ match op with OpPublish e => [e] | _ => [] end.
Proof. unfold publishedBy. rewrite omap_app. by destruct op. Qed.

Lemma busStep_maxEvents s op : maxEvents (emitter (busStep s op)) = maxEvents (emitter s).
Proof. by destruct op. Qed.

Lemma busRun_maxEvents ops s : maxEvents (emitter (busRun ops s)) = maxEvents (emitter s).
Proof.
  induction ops as [|op ops IH] using rev_ind; [done|].
  by rewrite busRun_snoc, busStep_maxEvents.
Qed.

(** Whatever the clients do, the buffer holds the last [maxEvents]
    published events. *)
Lemma busRun_recentEvents ops s :
  recentEvents (emitter s) = [] →
  recentEvents (emitter (busRun ops s)) = lastn (maxEvents (emitter s)) (publishedBy ops).
Proof.
  intros Hnil. induction ops as [|op ops IH] using rev_ind.
  { simpl. by rewrite Hnil. }
  rewrite busRun_snoc, publishedBy_snoc.
  destruct op as [e|f|f]; simpl; rewrite ?app_nil_r; try done.
  rewrite busRun_maxEvents, IH.
  rewrite retain_lastn by (rewrite lastn_length; lia).
  apply lastn_snoc.
Qed.

End EmitterFacts.

(** C2. From the emitter as constructed (empty buffer, capacity
    [maxEvents], 100 for [dashboardEvents]) and whatever its clients do,
    [getRecentEvents()] returns the last [min N maxEvents] of the [N]
    events published so far, in publish order, so never more than
    [maxEvents] of them; a further publish appends the event while the
    buffer is below capacity and, at capacity, also removes exactly the
    first (oldest) element. *)
Theorem retained_history_bounded_fifo (Data World : Type)
    (cap : nat) (fs : list (Listener Data World)) (w : World)
    (ops : list (BusOp Data World)) :
  let s := busRun ops {| emitter := {| recentEvents := []; maxEvents := cap; listeners := fs |};
                         world := w; calls := [] |} in
  let recent := getRecentEvents (emitter s) in
  maxEvents (@dashboardEvents Data World) = 100 ∧
  recentEvents (@dashboardEvents Data World) = [] ∧
  recent = lastn (min (length (publishedBy ops)) cap) (publishedBy ops) ∧
  length recent ≤ cap ∧
  ∀ e : DashboardEvent Data,
    let recent' := getRecentEvents (emitter (busStep s (OpPublish e))) in
    (length recent < cap → recent' = recent ++ [e]) ∧
    (length recent = cap → recent' = drop 1 (recent ++ [e])).
Proof.
  intros s recent.
  assert (Hcap : maxEvents (emitter s) = cap) by apply busRun_maxEvents.
  assert (Hrec : recent = lastn cap (publishedBy ops)).
  { unfold recent, getRecentEvents, s. by rewrite busRun_recentEvents. }
  split_and!; [done|done| |..].
  - by rewrite lastn_min.
  - rewrite Hrec, lastn_length. lia.
  - intros e recent'. unfold recent', getRecentEvents. simpl. rewrite Hcap.
    split; intros H.
    + by apply retain_below.
    + by apply retain_full.
Qed.

(** ** Listeners: registration, removal, notification *)

Section ListenerFacts.
Context {Data World : Type}.
Implicit Types (bus : DashboardEventEmitter Data World) (s : BusState Data World).
Implicit Types (f : Listener Data World) (fs : list (Listener Data World)).
Implicit Types (e : DashboardEvent Data) (ops : list (BusOp Data World)).

Lemma remove_last_absent i fs : i ∉ lid <$> fs → remove_last i fs = fs.
Proof.
  induction fs as [|f fs IH]; [done|]. simpl. intros Hnot.
  apply not_elem_of_cons in Hnot as [Hne Hnot].
  rewrite bool_decide_eq_false_2 by done.
  by rewrite bool_decide_eq_false_2 by done.
Qed.

Lemma remove_last_subseteq i fs : remove_last i fs ⊆ fs.
Proof.
  induction fs as [|f fs IH]; [done|]. simpl. intros g.
  repeat case_bool_decide; rewrite ?elem_of_cons; intuition auto.
Qed.

Lemma remove_last_other i j fs :
  j ≠ i → j ∈ lid <$> fs → j ∈ lid <$> (remove_last i fs).
Proof.
  intros Hne. induction fs as [|f fs IH]; [done|]. simpl.
  repeat case_bool_decide; simpl; rewrite ?elem_of_cons; intuition congruence.
Qed.

Lemma remove_last_NoDup i fs : NoDup (lid <$> fs) → NoDup (lid <$> (remove_last i fs)).
Proof.
  induction fs as [|f fs IH]; [done|]. simpl. intros [Hnot Hnd]%NoDup_cons.
  repeat case_bool_decide; simpl; try done; try by apply NoDup_cons.
  apply NoDup_cons. split; [|by apply IH].
  intros Hin. apply Hnot. eapply list_elem_of_fmap_1 in Hin as (g & -> & Hg).
  apply list_elem_of_fmap_2. by apply remove_last_subseteq in Hg.
Qed.

Lemma remove_last_gone i fs : NoDup (lid <$> fs) → i ∉ lid <$> (remove_last i fs).
Proof.
  induction fs as [|f fs IH]; [intros _; apply not_elem_of_nil|].
  simpl. intros [Hnot Hnd]%NoDup_cons.
  repeat case_bool_decide; simpl; rewrite ?not_elem_of_cons; try done.
  split; [|by apply IH]. intros ->. done.
Qed.

(** When no listener throws, [emit] calls all of them, in array order. *)
Lemma emit_all_return fs e w :
  (∀ f, f ∈ fs → ∀ w', returns (call f e w') = true) →
  (emit fs e w).1 = (λ f, (lid f, e)) <$> fs ∧ returns (emit fs e w).2 = true.
Proof.
  revert w. induction fs as [|f fs IH]; intros w Hret; [done|]. simpl.
  pose proof (Hret f ltac:(left) w) as Hf.
  destruct (call f e w) as [w'|x w']; [|done]. simpl.
  destruct (IH w') as [-> ->]; [|done].
  intros g Hg. apply Hret. by right.
Qed.

(** In any case the calls made are an initial part of that sequence: it
    ends with the first listener that throws. *)
Lemma emit_prefix fs e w : (emit fs e w).1 `prefix_of` (λ f, (lid f, e)) <$> fs.
Proof.
  revert w. induction fs as [|f fs IH]; intros w; [done|]. cbn [emit fmap list_fmap].
  destruct (call f e w) as [w'|x w']; simpl.
  - apply prefix_cons, IH.
  - apply prefix_cons, prefix_nil.
Qed.

(** [emit] on an array in two parts: the second part is reached when no
    listener of the first throws, with the state the first part left. *)
Lemma emit_app fs1 fs2 e w :
  emit (fs1 ++ fs2) e w =
  match (emit fs1 e w).2 with
  | Normal w1 => ((emit fs1 e w).1 ++ (emit fs2 e w1).1, (emit fs2 e w1).2)
  | Throw x w1 => emit fs1 e w
  end.
Proof.
  revert w. induction fs1 as [|f fs1 IH]; intros w; simpl.
  { by destruct (emit fs2 e w). }
  destruct (call f e w) as [w'|x w']; simpl; [|done].
  rewrite IH. by destruct (emit fs1 e w') as [cs [w1|y w1]].
Qed.

Lemma emit_normal_calls fs e w w1 :
  (emit fs e w).2 = Normal w1 → (emit fs e w).1 = (λ f, (lid f, e)) <$> fs.
Proof.
  revert w. induction fs as [|f fs IH]; intros w; simpl; [done|].
  destruct (call f e w) as [w'|x w']; simpl; [|done].
  intros H. by rewrite (IH _ H).
Qed.

(** The first listener that throws ends [emit]: it is the last one called,
    and its exception, with the state it left, is the outcome of [emit]. *)
Lemma emit_stops_at_throw fs1 f fs2 e w w1 x w2 :
  (emit fs1 e w).2 = Normal w1 →
  call f e w1 = Throw x w2 →
  emit (fs1 ++ f :: fs2) e w = ((λ g, (lid g, e)) <$> (fs1 ++ [f]), Throw x w2).
Proof.
  intros H1 Hf. rewrite emit_app, H1. simpl. rewrite Hf. simpl.
  by rewrite (emit_normal_calls _ _ _ _ H1), fmap_app.
Qed.

(** And [emit] throws in no other way. *)
Lemma emit_throw_inv fs e w x w2 :
  (emit fs e w).2 = Throw x w2 →
  ∃ fs1 f fs2 w1,
    fs = fs1 ++ f :: fs2 ∧ (emit fs1 e w).2 = Normal w1 ∧ call f e w1 = Throw x w2.
Proof.
  revert w. induction fs as [|f fs IH]; intros w; simpl; [done|].
  destruct (call f e w) as [w'|y w'] eqn:Hf; simpl.
  - intros (fs1 & g & fs2 & w1 & -> & H1 & Hg)%IH.
    exists (f :: fs1), g, fs2, w1. simpl. by rewrite Hf.
  - intros [= -> ->]. by exists [], f, fs, w.
Qed.

(** Whatever the listeners do, [emit] calls registered listeners only,
    and with the event it was given. *)
Lemma emit_calls_sound fs e w c :
  c ∈ (emit fs e w).1 → c.2 = e ∧ c.1 ∈ lid <$> fs.
Proof.
  revert w. induction fs as [|f fs IH]; intros w; simpl; [by intros ?%elem_of_nil|].
  destruct (call f e w) as [w'|x w']; simpl.
  - intros [->|Hin]%elem_of_cons; [by split; [|left]|].
    destruct (IH _ Hin). split; [done|by right].
  - intros ->%list_elem_of_singleton. by split; [|left].
Qed.

Lemma registeredBy_snoc ops (op : BusOp Data World) :
  registeredBy (ops ++ [op]) =
  registeredBy ops ++ match op with OpOn f => [lid f] | _ => [] end.
Proof. unfold registeredBy. rewrite omap_app. by destruct op. Qed.

(** The calls made during a run: each is for an event published during
    the run, to a listener registered before or during the run. *)
Lemma busRun_calls ops s :
  ∃ new,
    calls (busRun ops s) = calls s ++ new ∧
    (∀ c, c ∈ new →
       c.2 ∈ publishedBy ops ∧
       (c.1 ∈ lid <$> (listeners (emitter s)) ∨ c.1 ∈ registeredBy ops)) ∧
    (∀ i, i ∈ lid <$> (listeners (emitter (busRun ops s))) →
       i ∈ lid <$> (listeners (emitter s)) ∨ i ∈ registeredBy ops).
Proof.
  induction ops as [|op ops (new & Hcalls & Hnew & Hids)] using rev_ind.
  { exists []. simpl. rewrite app_nil_r. split_and!; [done| |by left].
    by intros c ?%elem_of_nil. }
  rewrite busRun_snoc, publishedBy_snoc, registeredBy_snoc.
  destruct op as [e|f|f]; simpl; rewrite ?app_nil_r.
  - exists (new ++ (emit (listeners (emitter (busRun ops s))) e (world (busRun ops s))).1).
    rewrite Hcalls, <-(assoc_L (++)). split_and!; [done| |done].
    intros c [Hc|Hc]%elem_of_app.
    + destruct (Hnew c Hc). split; [|done]. apply elem_of_app. by left.
    + apply emit_calls_sound in Hc as [-> Hc]. split; [|by apply Hids].
      apply elem_of_app. right. by left.
  - exists new. split_and!; [done| |].
    + intros c Hc. destruct (Hnew c Hc) as [? [?|?]]; split; try done; [by left|].
      right. apply elem_of_app. by left.
    + intros i. rewrite fmap_app, !elem_of_app. simpl.
      intros [Hi|Hi]; [destruct (Hids i Hi); tauto|]. tauto.
  - exists new. split_and!; [done|done|].
    intros i Hi. apply Hids.
    apply list_elem_of_fmap_1 in Hi as (g & -> & Hg).
    apply list_elem_of_fmap_2. by apply remove_last_subseteq in Hg.
Qed.

End ListenerFacts.

(** ** The dashboard server *)

Section ServerFacts.
Context {Data : Type} (JSON_stringify_event : DashboardEvent Data → option string).
Implicit Types (s : Server Data) (σ : gmap nat WebSocket) (sock : WebSocket).
Implicit Types (e : DashboardEvent Data) (ws c : nat) (cs : list nat).

Abbreviation serialisable := (serialisable JSON_stringify_event).
Abbreviation JSON_stringify := (JSON_stringify JSON_stringify_event).
Abbreviation handler := (handler JSON_stringify_event).
Abbreviation deliver := (deliver JSON_stringify_event).
Abbreviation step := (step JSON_stringify_event).
Abbreviation run := (run JSON_stringify_event).
Abbreviation consistent := (consistent JSON_stringify_event).

Lemma deliver_readyState e sock : readyState (deliver e sock) = readyState sock.
Proof.
  unfold deliver, ws_send. simpl. case_decide; [|done].
  destruct (JSON_stringify_event e); [|done]. by destruct (readyState sock).
Qed.

Lemma deliver_closeListener e sock : closeListener (deliver e sock) = closeListener sock.
Proof.
  unfold deliver, ws_send. simpl. case_decide; [|done].
  destruct (JSON_stringify_event e); [|done]. by destruct (readyState sock).
Qed.

Lemma deliver_open e sock t :
  readyState sock = OPEN →
  JSON_stringify_event e = Some t →
  sendCalls (deliver e sock) = sendCalls sock ++ [(OPEN, event_frame t)].
Proof.
  intros H Ht. unfold deliver, ws_send. simpl.
  rewrite decide_True by done. by rewrite Ht, H.
Qed.

Lemma deliver_not_open e sock : readyState sock ≠ OPEN → deliver e sock = sock.
Proof. intros H. unfold deliver. by rewrite decide_False. Qed.

Lemma deliver_unserialisable e sock : JSON_stringify_event e = None → deliver e sock = sock.
Proof. intros H. unfold deliver. simpl. rewrite H. by case_decide. Qed.

Lemma alter_deliver_id e ws σ :
  (∀ sock, σ !! ws = Some sock → deliver e sock = sock) → alter (deliver e) ws σ = σ.
Proof.
  intros H. apply map_eq. intros i. destruct (decide (ws = i)) as [<-|Hne].
  - rewrite lookup_alter_eq. destruct (σ !! ws) as [sock|] eqn:Hsock; [|done].
    simpl. by rewrite H.
  - by rewrite lookup_alter_ne.
Qed.

(** All [handler] does to the state is [deliver] on its own socket. *)
Lemma handler_state ws e σ : state_of (call (handler ws) e σ) = alter (deliver e) ws σ.
Proof.
  simpl. destruct (σ !! ws) as [sock|] eqn:Hsock.
  - destruct (decide (readyState sock = OPEN)) as [Hopen|Hclosed].
    + destruct (JSON_stringify_event e) as [t|] eqn:Ht; simpl.
      * unfold ws_send. rewrite Hopen. simpl.
        apply map_eq. intros i. destruct (decide (ws = i)) as [<-|Hne].
        -- rewrite lookup_insert_eq, lookup_alter_eq, Hsock. simpl. f_equal.
           unfold deliver, ws_send. simpl. rewrite decide_True by done.
           by rewrite Ht, Hopen.
        -- by rewrite lookup_insert_ne, lookup_alter_ne.
      * symmetry. apply alter_deliver_id. intros. by apply deliver_unserialisable.
    + simpl. symmetry. apply alter_deliver_id. intros sock' ?. simplify_eq.
      by apply deliver_not_open.
  - simpl. symmetry. apply alter_deliver_id. intros sock' ?. simplify_eq.
Qed.

(** [handler] throws in one case only: an OPEN socket and an event that
    [JSON.stringify] refuses. *)
Lemma handler_returns ws e σ :
  serialisable e → returns (call (handler ws) e σ) = true.
Proof.
  intros [t Ht]. simpl. destruct (σ !! ws) as [sock|]; [|done].
  case_decide; [|done]. rewrite Ht. simpl. unfold ws_send.
  by destruct (readyState sock).
Qed.

Lemma handler_call ws e σ :
  serialisable e → call (handler ws) e σ = Normal (alter (deliver e) ws σ).
Proof.
  intros He. pose proof (handler_returns ws e σ He) as Hr.
  pose proof (handler_state ws e σ) as Hs.
  destruct (call (handler ws) e σ); [|done]. simpl in Hs. by rewrite Hs.
Qed.

Lemma handler_not_open ws e σ sock :
  σ !! ws = Some sock → readyState sock ≠ OPEN → call (handler ws) e σ = Normal σ.
Proof. intros Hsock Hclosed. simpl. rewrite Hsock. by rewrite decide_False. Qed.

(** Notifying the handlers of the sockets [cs]. *)
Lemma emit_handlers cs e σ :
  serialisable e →
  emit (handler <$> cs) e σ =
  ((λ c, (c, e)) <$> cs, Normal (foldl (λ σ c, alter (deliver e) c σ) σ cs)).
Proof.
  intros He. revert σ. induction cs as [|c cs IH]; intros σ; [done|].
  cbn [fmap list_fmap emit foldl]. rewrite handler_call by done. by rewrite IH.
Qed.

(** Whether a handler throws or not, the state [emit] leaves is the one
    [deliver] gives on each socket. *)
Lemma emit_handlers_state cs e σ :
  state_of (emit (handler <$> cs) e σ).2 = foldl (λ σ c, alter (deliver e) c σ) σ cs.
Proof.
  destruct (JSON_stringify_event e) as [t|] eqn:Ht.
  { by rewrite emit_handlers by by exists t. }
  assert (Hid : ∀ c σ, alter (deliver e) c σ = σ).
  { intros c σ'. apply alter_deliver_id. intros. by apply deliver_unserialisable. }
  revert σ. induction cs as [|c cs IH]; intros σ; [done|].
  cbn [fmap list_fmap emit foldl]. rewrite Hid.
  pose proof (handler_state c e σ) as Hs. rewrite Hid in Hs.
  destruct (call (handler c) e σ) as [σ'|x σ']; simpl in *; subst σ'; [apply IH|].
  clear IH. induction cs as [|c' cs IH]; [done|]. simpl. by rewrite Hid.
Qed.

Lemma foldl_deliver_lookup cs e σ c :
  NoDup cs →
  foldl (λ σ c, alter (deliver e) c σ) σ cs !! c =
  if decide (c ∈ cs) then deliver e <$> σ !! c else σ !! c.
Proof.
  revert σ. induction cs as [|c' cs IH]; intros σ Hnd; cbn [foldl].
  { by rewrite decide_False by apply not_elem_of_nil. }
  apply NoDup_cons in Hnd as [Hnot Hnd]. rewrite IH by done.
  destruct (decide (c = c')) as [->|Hne].
  - rewrite decide_False by done. rewrite decide_True by left.
    apply lookup_alter_eq.
  - rewrite lookup_alter_ne by done.
    destruct (decide (c ∈ cs)).
    + by rewrite decide_True by by right.
    + rewrite decide_False; [done|]. by apply not_elem_of_cons.
Qed.

Lemma consistent_listeners s :
  consistent s → listeners (bus s) = handler <$> (lid <$> listeners (bus s)).
Proof.
  intros [_ H]. induction (listeners (bus s)) as [|f fs IH]; [done|].
  cbn [fmap list_fmap]. f_equal.
  - apply H. by left.
  - apply IH. intros g Hg. apply H. by right.
Qed.

(** A publish on the server: the listeners stay, and what it does to the
    sockets is [deliver] on every subscribed one. *)
Lemma publish_step s e :
  consistent s →
  listeners (bus (step s (Publish e))) = listeners (bus s) ∧
  ∀ c, sockets (step s (Publish e)) !! c =
       if decide (c ∈ lid <$> listeners (bus s))
       then deliver e <$> sockets s !! c
       else sockets s !! c.
Proof.
  intros Hs. pose proof (consistent_listeners s Hs) as Hls. destruct Hs as [Hnd _].
  simpl. split; [done|]. remember (lid <$> listeners (bus s)) as cs eqn:Hcs.
  rewrite Hls, emit_handlers_state. intros c. by apply foldl_deliver_lookup.
Qed.

(** With an event that [JSON.stringify] accepts no handler throws: every
    subscribed socket is notified, once. *)
Lemma publish_returns s e :
  consistent s →
  serialisable e →
  let r := emitDashboard e (bus s) (sockets s) in
  invoked r = (λ c, (c, e)) <$> (lid <$> listeners (bus s)) ∧
  returns (outcome r) = true.
Proof.
  intros Hs He. pose proof (consistent_listeners s Hs) as Hls.
  simpl. remember (lid <$> listeners (bus s)) as cs eqn:Hcs.
  rewrite Hls, emit_handlers by done. done.
Qed.

Lemma nextSocket_fresh s : sockets s !! nextSocket s = None.
Proof. apply not_elem_of_dom. unfold nextSocket. apply is_fresh. Qed.

(** A connection: the history goes out on the new socket, then the handler
    and the 'close' listener are registered. *)
Lemma connect_step s history :
  mapM JSON_stringify_event (recentEvents (bus s)) = Some history →
  step s Connect =
  {| bus := on (handler (nextSocket s)) (bus s);
     sockets := <[nextSocket s :=
                    {| readyState := OPEN;
                       sendCalls := [(OPEN, history_frame history)];
                       closeListener := true |}]> (sockets s) |}.
Proof.
  intros Hh. unfold step, onConnection. simpl. rewrite lookup_insert_eq.
  unfold getRecentEvents. simpl. rewrite Hh. simpl.
  by rewrite insert_insert_eq.
Qed.

(** A connection whose history [JSON.stringify] refuses: the callback
    is left at once; nothing was sent and nothing is registered. *)
Lemma connect_step_throws s :
  mapM JSON_stringify_event (recentEvents (bus s)) = None →
  step s Connect =
  {| bus := bus s;
     sockets := <[nextSocket s :=
                    {| readyState := OPEN; sendCalls := []; closeListener := false |}]>
                  (sockets s) |}.
Proof.
  intros Hh. unfold step, onConnection. simpl. rewrite lookup_insert_eq.
  unfold getRecentEvents. simpl. by rewrite Hh.
Qed.

Lemma start_consistent : consistent startDashboardServer.
Proof. split; [constructor|]. by intros f ?%elem_of_nil. Qed.

Lemma step_consistent s i : consistent s → consistent (step s i).
Proof.
  intros Hs. destruct i as [e| |c|c].
  - destruct (publish_step s e Hs) as (Hls & Hsock).
    destruct Hs as [Hnd Hall]. split; rewrite Hls; [done|].
    intros f Hf. destruct (Hall f Hf) as (Hh & sock & Hlook & Hcl & Hrs).
    split; [done|]. exists (deliver e sock). rewrite Hsock, Hlook.
    rewrite decide_True by by apply list_elem_of_fmap_2.
    by rewrite deliver_closeListener, deliver_readyState.
  - pose proof (nextSocket_fresh s) as Hfresh. destruct Hs as [Hnd Hall].
    assert (Hold : ∀ f, f ∈ listeners (bus s) → lid f ≠ nextSocket s).
    { intros f Hf Heq. destruct (Hall f Hf) as (_ & sock & Hlook & _).
      rewrite Heq, Hfresh in Hlook. done. }
    destruct (mapM JSON_stringify_event (recentEvents (bus s))) as [history|] eqn:Hh.
    + rewrite (connect_step s history Hh). unfold nextSocket in *. split; simpl.
      * rewrite fmap_app. apply NoDup_app. split_and!; [done| |apply NoDup_singleton].
        intros i Hi ->%list_elem_of_singleton.
        apply list_elem_of_fmap_1 in Hi as (f & Hf & Hin).
        simpl in Hf. by apply (Hold f Hin).
      * intros f [Hf| ->%list_elem_of_singleton]%elem_of_app.
        -- destruct (Hall f Hf) as (Hh' & sock & Hlook & Hcl & Hrs).
           split; [done|]. exists sock. rewrite lookup_insert_ne; [done|].
           intros Heq. by apply (Hold f Hf).
        -- split; [done|]. eexists. simpl. rewrite lookup_insert_eq. done.
    + rewrite (connect_step_throws s Hh). unfold nextSocket in *. split; simpl; [done|].
      intros f Hf. destruct (Hall f Hf) as (Hh' & sock & Hlook & Hcl & Hrs).
      split; [done|]. exists sock. rewrite lookup_insert_ne; [done|].
      intros Heq. by apply (Hold f Hf).
  - simpl. destruct (sockets s !! c) as [sock|] eqn:Hc; [|done].
    case_decide as Hopen; [|done]. destruct Hs as [Hnd Hall]. split; [done|]. simpl.
    intros f Hf. destruct (Hall f Hf) as (Hh & sock' & Hlook & Hcl & Hrs).
    split; [done|]. destruct (decide (c = lid f)) as [->|Hne].
    + eexists. rewrite lookup_insert_eq. split_and!; [done|simpl; congruence|done].
    + exists sock'. by rewrite lookup_insert_ne.
  - simpl. destruct (sockets s !! c) as [sock|] eqn:Hc; [|done].
    case_decide as Hclosed; [done|]. destruct Hs as [Hnd Hall].
    destruct (closeListener sock) eqn:Hcl; split; simpl.
    + by apply remove_last_NoDup.
    + intros f Hf. pose proof (remove_last_gone c _ Hnd) as Hgone.
      assert (lid f ≠ c) as Hne.
      { intros <-. apply Hgone. by apply list_elem_of_fmap_2. }
      apply remove_last_subseteq in Hf.
      destruct (Hall f Hf) as (Hh & sock' & Hlook & ? & ?).
      split; [done|]. exists sock'. by rewrite lookup_insert_ne.
    + done.
    + intros f Hf. destruct (Hall f Hf) as (Hh & sock' & Hlook & Hcl' & Hrs).
      split; [done|]. exists sock'. rewrite lookup_insert_ne; [done|].
      intros ->. congruence.
Qed.

Lemma run_snoc inputs i s : run (inputs ++ [i]) s = step (run inputs s) i.
Proof. unfold run. by rewrite fold_left_app. Qed.

Lemma run_app inputs inputs' s : run (inputs ++ inputs') s = run inputs' (run inputs s).
Proof. unfold run. by rewrite fold_left_app. Qed.

Lemma run_consistent inputs s : consistent s → consistent (run inputs s).
Proof.
  intros Hs. induction inputs as [|i inputs IH] using rev_ind; [done|].
  rewrite run_snoc. by apply step_consistent.
Qed.

Lemma step_buffer s i :
  maxEvents (bus (step s i)) = maxEvents (bus s) ∧
  recentEvents (bus (step s i)) =
    match i with
    | Publish e => retain (maxEvents (bus s)) (recentEvents (bus s)) e
    | _ => recentEvents (bus s)
    end.
Proof.
  destruct i as [e| |c|c]; [done| |..].
  - destruct (mapM JSON_stringify_event (recentEvents (bus s))) as [history|] eqn:Hh.
    + by rewrite (connect_step s history Hh).
    + by rewrite (connect_step_throws s Hh).
  - simpl. destruct (sockets s !! c); [|done]. by case_decide.
  - simpl. destruct (sockets s !! c) as [sock|]; [|done]. case_decide; [done|].
    by destruct (closeListener sock).
Qed.

Lemma published_snoc (inputs : list (Input Data)) i :
  published (inputs ++ [i]) =
  published inputs ++ match i with Publish e => [e] | _ => [] end.
Proof. unfold published. rewrite omap_app. by destruct i. Qed.

Lemma published_app (inputs inputs' : list (Input Data)) :
  published (inputs ++ inputs') = published inputs ++ published inputs'.
Proof. unfold published. by rewrite omap_app. Qed.

Lemma run_maxEvents inputs s : maxEvents (bus (run inputs s)) = maxEvents (bus s).
Proof.
  induction inputs as [|i inputs IH] using rev_ind; [done|].
  rewrite run_snoc. by destruct (step_buffer (run inputs s) i) as [-> _].
Qed.

(** The server leaves the buffer to [emitDashboard]: it holds the last
    [maxEvents] events published, whether a handler threw or not. *)
Lemma run_recentEvents inputs s :
  recentEvents (bus s) = [] →
  recentEvents (bus (run inputs s)) = lastn (maxEvents (bus s)) (published inputs).
Proof.
  intros Hnil. induction inputs as [|i inputs IH] using rev_ind.
  { simpl. by rewrite Hnil. }
  rewrite run_snoc, published_snoc.
  destruct (step_buffer (run inputs s) i) as [_ ->].
  destruct i; rewrite ?app_nil_r; try done.
  rewrite run_maxEvents, IH.
  rewrite retain_lastn by (rewrite lastn_length; lia).
  apply lastn_snoc.
Qed.

Lemma received_open (g : string → string) (ts : list string) :
  omap (λ p : ReadyState * string, if decide (p.1 = OPEN) then Some p.2 else None)
       ((λ t, (OPEN, g t)) <$> ts) = g <$> ts.
Proof. induction ts as [|t ts IH]; [done|]. simpl. f_equal. apply IH. Qed.

Lemma mapM_snoc {A B : Type} (f : A → option B) (xs : list A) x (ys : list B) y :
  mapM f xs = Some ys → f x = Some y → mapM f (xs ++ [x]) = Some (ys ++ [y]).
Proof.
  rewrite !mapM_Some. intros H1 H2. apply Forall2_app; [done|].
  by apply Forall2_cons.
Qed.

(** While a subscribed socket stays OPEN, each publish adds one call of
    [send] on it, with the published event, and nothing else does. *)
Lemma open_socket_stream post : ∀ s ws sock,
  consistent s →
  ws ∈ lid <$> listeners (bus s) →
  sockets s !! ws = Some sock →
  readyState sock = OPEN →
  (∀ i, i ∈ post → closes ws i = false) →
  Forall serialisable (published post) →
  ws ∈ lid <$> listeners (bus (run post s)) ∧
  ∃ sock' live,
    sockets (run post s) !! ws = Some sock' ∧
    readyState sock' = OPEN ∧
    closeListener sock' = closeListener sock ∧
    mapM JSON_stringify_event (published post) = Some live ∧
    sendCalls sock' = sendCalls sock ++ ((λ t, (OPEN, event_frame t)) <$> live).
Proof.
  induction post as [|i post IH] using rev_ind;
    intros s ws sock Hs Hin Hsock Hopen Hpost Hser.
  { split; [done|]. exists sock, []. simpl. by rewrite app_nil_r. }
  rewrite published_snoc in Hser. apply Forall_app in Hser as [Hser Hi_ser].
  destruct (IH s ws sock Hs Hin Hsock Hopen)
    as (Hin' & sock' & live & Hsock' & Hopen' & Hcl' & Hlive & Hcalls); [|done|].
  { intros j Hj. apply Hpost, elem_of_app. by left. }
  assert (closes ws i = false) as Hi.
  { apply Hpost, elem_of_app. right. by left. }
  pose proof (run_consistent post s Hs) as Hs'.
  rewrite run_snoc, published_snoc.
  clear IH Hpost Hs Hin Hsock Hopen. set (s' := run post s) in *.
  assert (Hsame : ∀ s'', ws ∈ lid <$> listeners (bus s'') →
            sockets s'' !! ws = Some sock' →
            match i with Publish _ => False | _ => True end →
            ws ∈ lid <$> listeners (bus s'') ∧
            ∃ sock'' live',
              sockets s'' !! ws = Some sock'' ∧ readyState sock'' = OPEN ∧
              closeListener sock'' = closeListener sock ∧
              mapM JSON_stringify_event
                (published post ++ match i with Publish e => [e] | _ => [] end)
                = Some live' ∧
              sendCalls sock'' =
                sendCalls sock ++ ((λ t, (OPEN, event_frame t)) <$> live')).
  { intros s'' Hin'' Hsock'' Hnp. split; [done|]. exists sock', live.
    destruct i; [done|..]; by rewrite app_nil_r. }
  destruct i as [e| |c|c].
  - destruct (publish_step s' e Hs') as (-> & Hlook). split; [done|].
    apply Forall_singleton in Hi_ser as [t Ht].
    exists (deliver e sock'), (live ++ [t]).
    rewrite Hlook, decide_True, Hsock' by done.
    rewrite deliver_readyState, deliver_closeListener, (deliver_open _ _ t) by done.
    rewrite (mapM_snoc _ _ e live t) by done.
    by rewrite Hcalls, fmap_app, (assoc_L (++)).
  - assert (nextSocket s' ≠ ws) as Hne.
    { intros Heq. pose proof (nextSocket_fresh s') as Hfresh.
      rewrite Heq, Hsock' in Hfresh. done. }
    destruct (mapM JSON_stringify_event (recentEvents (bus s'))) as [history|] eqn:Hh.
    + rewrite (connect_step s' history Hh). apply Hsame; simpl; [| |done].
      * rewrite fmap_app. apply elem_of_app. by left.
      * by rewrite lookup_insert_ne.
    + rewrite (connect_step_throws s' Hh). apply Hsame; simpl; [done| |done].
      by rewrite lookup_insert_ne.
  - simpl in Hi. apply bool_decide_eq_false in Hi. simpl.
    destruct (sockets s' !! c) as [sockc|]; [case_decide|];
      apply Hsame; simpl; rewrite ?lookup_insert_ne by done; done.
  - simpl in Hi. apply bool_decide_eq_false in Hi. simpl.
    destruct (sockets s' !! c) as [sockc|]; [case_decide; [|destruct (closeListener sockc)]|];
      apply Hsame; simpl; rewrite ?lookup_insert_ne by done; try done.
    by apply remove_last_other.
Qed.

(** Closing a connection removes its handler and marks the socket CLOSED. *)
Lemma close_step s ws sock :
  consistent s →
  sockets s !! ws = Some sock →
  (ws ∉ lid <$> listeners (bus (step s (Close ws)))) ∧
  ∃ sock', sockets (step s (Close ws)) !! ws = Some sock' ∧
           readyState sock' = CLOSED ∧ sendCalls sock' = sendCalls sock.
Proof.
  intros [Hnd Hall] Hsock.
  assert (Hreg : ws ∈ lid <$> listeners (bus s) →
                 closeListener sock = true ∧ readyState sock ≠ CLOSED).
  { intros (f & -> & Hf)%list_elem_of_fmap_1.
    destruct (Hall f Hf) as (_ & sock' & Hlook & ? & ?).
    rewrite Hsock in Hlook. by simplify_eq. }
  simpl. rewrite Hsock. case_decide as Hclosed.
  { split; [|by exists sock]. intros Hin. by destruct (Hreg Hin). }
  destruct (closeListener sock) eqn:Hcl; simpl.
  - split; [by apply remove_last_gone|]. eexists. by rewrite lookup_insert_eq.
  - split; [|eexists; by rewrite lookup_insert_eq].
    intros Hin. by destruct (Hreg Hin).
Qed.

(** A socket without a handler that is not OPEN stays as it is, whatever
    happens to the server afterwards. *)
Lemma closed_socket_frame post : ∀ s ws sock,
  consistent s →
  ws ∉ (lid <$> listeners (bus s)) →
  sockets s !! ws = Some sock →
  readyState sock = CLOSED →
  (ws ∉ (lid <$> listeners (bus (run post s)))) ∧
  sockets (run post s) !! ws = Some sock.
Proof.
  induction post as [|i post IH] using rev_ind; intros s ws sock Hs Hnot Hsock Hclosed.
  { done. }
  destruct (IH s ws sock Hs Hnot Hsock Hclosed) as [Hnot' Hsock'].
  pose proof (run_consistent post s Hs) as Hs'.
  rewrite run_snoc. clear IH Hs Hnot Hsock. set (s' := run post s) in *.
  destruct i as [e| |c|c].
  - destruct (publish_step s' e Hs') as (-> & Hlook). split; [done|].
    by rewrite Hlook, decide_False.
  - assert (nextSocket s' ≠ ws) as Hne.
    { intros Heq. pose proof (nextSocket_fresh s') as Hfresh.
      rewrite Heq, Hsock' in Hfresh. done. }
    destruct (mapM JSON_stringify_event (recentEvents (bus s'))) as [history|] eqn:Hh.
    + rewrite (connect_step s' history Hh). simpl.
      split; [|by rewrite lookup_insert_ne].
      rewrite fmap_app. apply not_elem_of_app. split; [done|].
      simpl. by intros ->%list_elem_of_singleton.
    + rewrite (connect_step_throws s' Hh). simpl.
      split; [done|by rewrite lookup_insert_ne].
  - simpl. destruct (decide (c = ws)) as [->|Hne].
    + rewrite Hsock'. rewrite decide_False; [done|]. rewrite Hclosed. done.
    + destruct (sockets s' !! c) as [sockc|]; [case_decide|]; simpl;
        rewrite ?lookup_insert_ne by done; done.
  - simpl. destruct (decide (c = ws)) as [->|Hne].
    + rewrite Hsock'. by rewrite decide_True.
    + destruct (sockets s' !! c) as [sockc|];
        [case_decide; [|destruct (closeListener sockc)]|]; simpl;
        rewrite ?lookup_insert_ne by done; (split; [|done]); try done.
      intros (f & Hf & Hin)%list_elem_of_fmap_1. apply Hnot'.
      rewrite Hf. apply list_elem_of_fmap_2. by apply remove_last_subseteq in Hin.
Qed.

(** The messages of a sequence of events, from their texts. *)
Lemma live_messages (es : list (DashboardEvent Data)) (ts : list string) :
  mapM JSON_stringify_event es = Some ts →
  mapM (λ e, JSON_stringify (Live e)) es = Some (event_frame <$> ts).
Proof.
  rewrite !mapM_Some. intros H. apply Forall2_fmap_r.
  eapply Forall2_impl; [done|]. simpl. by intros e t ->.
Qed.

Lemma history_message (es : list (DashboardEvent Data)) (ts : list string) :
  mapM JSON_stringify_event es = Some ts →
  JSON_stringify (History es) = Some (history_frame ts).
Proof. intros H. simpl. by rewrite H. Qed.

Lemma serialisable_texts (es : list (DashboardEvent Data)) :
  Forall serialisable es → ∃ ts, mapM JSON_stringify_event es = Some ts.
Proof. intros H. apply mapM_is_Some in H as [ts Hts]. by exists ts. Qed.

Lemma deliver_guarded e sock : guarded sock → guarded (deliver e sock).
Proof.
  intros Hg. destruct (decide (readyState sock = OPEN)) as [Hopen|Hclosed].
  - destruct (JSON_stringify_event e) as [t|] eqn:Ht.
    + unfold guarded. rewrite (deliver_open _ _ t) by done.
      apply Forall_app. split; [done|]. by apply Forall_singleton.
    + by rewrite deliver_unserialisable.
  - by rewrite deliver_not_open.
Qed.

(** Every call of [send], the one with the history included, is made on
    a socket that is OPEN. *)
Lemma step_guarded s i :
  consistent s →
  (∀ ws sock, sockets s !! ws = Some sock → guarded sock) →
  ∀ ws sock, sockets (step s i) !! ws = Some sock → guarded sock.
Proof.
  intros Hs Hg ws sock. destruct i as [e| |c|c].
  - destruct (publish_step s e Hs) as (_ & ->).
    destruct (sockets s !! ws) as [sock0|] eqn:Hsock; [|by case_decide].
    pose proof (Hg ws sock0 Hsock). case_decide; simpl; intros [= <-]; [|done].
    by apply deliver_guarded.
  - destruct (mapM JSON_stringify_event (recentEvents (bus s))) as [history|] eqn:Hh.
    + rewrite (connect_step s history Hh). simpl.
      destruct (decide (nextSocket s = ws)) as [<-|Hne].
      * rewrite lookup_insert_eq. intros [= <-]. by apply Forall_singleton.
      * rewrite lookup_insert_ne by done. apply Hg.
    + rewrite (connect_step_throws s Hh). simpl.
      destruct (decide (nextSocket s = ws)) as [<-|Hne].
      * rewrite lookup_insert_eq. intros [= <-]. apply Forall_nil_2.
      * rewrite lookup_insert_ne by done. apply Hg.
  - simpl. destruct (sockets s !! c) as [sockc|] eqn:Hc; [|apply Hg].
    case_decide; [|apply Hg]. simpl. destruct (decide (c = ws)) as [<-|Hne].
    + rewrite lookup_insert_eq. intros [= <-]. apply (Hg c sockc Hc).
    + rewrite lookup_insert_ne by done. apply Hg.
  - simpl. destruct (sockets s !! c) as [sockc|] eqn:Hc; [|apply Hg].
    case_decide; [apply Hg|].
    assert (Hins : ∀ b, <[c := {| readyState := CLOSED; sendCalls := sendCalls sockc;
                                  closeListener := b |}]> (sockets s) !! ws = Some sock →
                        guarded sock).
    { intros b. destruct (decide (c = ws)) as [<-|Hne].
      - rewrite lookup_insert_eq. intros [= <-]. apply (Hg c sockc Hc).
      - rewrite lookup_insert_ne by done. apply Hg. }
    destruct (closeListener sockc); simpl; apply Hins.
Qed.

Lemma run_guarded inputs ws sock :
  sockets (run inputs startDashboardServer) !! ws = Some sock → guarded sock.
Proof.
  revert ws sock. induction inputs as [|i inputs IH] using rev_ind.
  { intros ws sock. simpl. by rewrite lookup_empty. }
  rewrite run_snoc. apply step_guarded; [|done].
  apply run_consistent, start_consistent.
Qed.

End ServerFacts.

(** ** Publishing and subscribing *)

(** C3, as amended. [emitDashboard] updates the retained buffer in any
    case, before any callback runs, and touches nothing else of the
    emitter. It returns (no value) without throwing, whatever the event
    carries, provided none of the registered callbacks throws on that
    event. And it throws exactly when a registered callback does: the
    callbacks before that one have returned, and the exception of that
    callback, with the state it left, is what reaches the producer. *)
Theorem publish_returns_unless_listener_throws (Data World : Type)
    (bus : DashboardEventEmitter Data World) (e : DashboardEvent Data) (w : World) :
  let r := emitDashboard e bus w in
  recentEvents (emitter_after r) = retain (maxEvents bus) (recentEvents bus) e ∧
  maxEvents (emitter_after r) = maxEvents bus ∧
  listeners (emitter_after r) = listeners bus ∧
  ((∀ f, f ∈ listeners bus → ∀ w', returns (call f e w') = true) →
   returns (outcome r) = true) ∧
  ∀ x w2,
    outcome r = Throw x w2 ↔
    ∃ fs1 f fs2 w1,
      listeners bus = fs1 ++ f :: fs2 ∧
      (emit fs1 e w).2 = Normal w1 ∧
      call f e w1 = Throw x w2.
Proof.
  intros r. split_and!; [done|done|done| |].
  - intros Hret. simpl. by apply emit_all_return.
  - intros x w2. simpl. split.
    + apply emit_throw_inv.
    + intros (fs1 & f & fs2 & w1 & -> & H1 & Hf).
      by rewrite (emit_stops_at_throw fs1 f fs2 e w w1 x w2).
Qed.


(** C7, the emitter part and the server part. Removing a callback that is
    not registered (never was, or has been removed) changes nothing, in
    the subscriber list or in the buffer; removing a callback that was
    registered once, twice in a row, is the same as removing it once. In
    the server every handler is registered once, so running the 'close'
    callback of a socket a second time changes nothing. [off] is a total
    function: there is no error to raise. *)
Theorem unsubscribe_idempotent (Data World : Type)
    (bus : DashboardEventEmitter Data World) (f : Listener Data World) :
  (lid f ∉ lid <$> listeners bus → off f bus = bus) ∧
  (NoDup (lid <$> listeners bus) → off f (off f bus) = off f bus) ∧
  recentEvents (off f bus) = recentEvents bus ∧
  ∀ (JSON_stringify_event : DashboardEvent Data → option string)
    (inputs : list (Input Data)) (ws : nat),
    let s := run JSON_stringify_event inputs startDashboardServer in
    onClose JSON_stringify_event ws (onClose JSON_stringify_event ws s) =
    onClose JSON_stringify_event ws s.
Proof.
  assert (Hid : ∀ (W : Type) (b : DashboardEventEmitter Data W) (g : Listener Data W),
            lid g ∉ lid <$> listeners b → off g b = b).
  { intros W b g Hnot. destruct b as [r m fs]. unfold off. simpl in *.
    by rewrite remove_last_absent. }
  assert (Htwice : ∀ (W : Type) (b : DashboardEventEmitter Data W) (g : Listener Data W),
            NoDup (lid <$> listeners b) → off g (off g b) = off g b).
  { intros W b g Hnd. apply Hid. simpl. by apply remove_last_gone. }
  split_and!; [by apply Hid|by apply Htwice|done|].
  intros JSON_stringify_event inputs ws s. unfold onClose. simpl. f_equal.
  apply Htwice.
  by destruct (run_consistent JSON_stringify_event inputs _
                 (start_consistent JSON_stringify_event)).
Qed.

(** ** Connections *)

(** C1, as amended. A viewer connects after the events of [pre] have been
    published, at most 100 of them (the capacity), and its socket is not
    closed during [post]; every one of the events published before and
    after is one that [JSON.stringify] accepts. What the viewer gets is one
    history message with exactly the events of [pre], then one message per
    event of [post], in publish order, and nothing else: no event published
    after the connection is missing or repeated, none of the history comes
    again as a live event. Other viewers may connect and leave meanwhile. *)
Theorem no_gap_no_duplicate_delivery (Data : Type)
    (JSON_stringify_event : DashboardEvent Data → option string)
    (pre post : list (Input Data)) :
  let s := run JSON_stringify_event pre startDashboardServer in
  let ws := nextSocket s in
  let s' := run JSON_stringify_event post (step JSON_stringify_event s Connect) in
  length (published pre) ≤ 100 →
  (∀ i, i ∈ post → closes ws i = false) →
  Forall (serialisable JSON_stringify_event) (published pre ++ published post) →
  ∃ history live,
    JSON_stringify JSON_stringify_event (History (published pre)) = Some history ∧
    mapM (λ e, JSON_stringify JSON_stringify_event (Live e)) (published post) = Some live ∧
    receivedBy ws s' = history :: live.
Proof.
  intros s ws s' Hk Hopen [Hpre Hpost]%Forall_app.
  pose proof (run_consistent JSON_stringify_event pre _
                (start_consistent JSON_stringify_event)) as Hs.
  fold s in Hs.
  assert (Hrecent : recentEvents (bus s) = published pre).
  { unfold s. rewrite run_recentEvents by done. by apply lastn_all. }
  destruct (serialisable_texts _ _ Hpre) as [hs Hhs].
  pose proof (step_consistent JSON_stringify_event s Connect Hs) as Hs1.
  unfold s'. revert Hs1. rewrite (connect_step _ s hs) by by rewrite Hrecent.
  fold ws. intros Hs1.
  set (sock := {| readyState := OPEN;
                  sendCalls := [(OPEN, history_frame hs)];
                  closeListener := true |}) in *.
  destruct (open_socket_stream JSON_stringify_event post _ ws sock Hs1)
    as (_ & sock' & ls & Hsock' & _ & _ & Hls & Hcalls); [| |done|done|done|].
  { simpl. rewrite fmap_app. apply elem_of_app. right. by left. }
  { simpl. apply lookup_insert_eq. }
  exists (history_frame hs), (event_frame <$> ls).
  split_and!; [by apply history_message|by apply live_messages|].
  unfold receivedBy, received. rewrite Hsock', Hcalls. simpl.
  f_equal. apply received_open.
Qed.

(** C8. Once the 'close' event of a connection has been handled, its
    handler is no longer registered, and it stays so; whatever is
    published afterwards, for whatever other viewers, the handler is not
    called, no [send] is made on the socket and the viewer gets nothing
    more. *)
Theorem disconnect_stops_delivery (Data : Type)
    (JSON_stringify_event : DashboardEvent Data → option string)
    (pre post : list (Input Data)) (ws : nat) :
  let s := run JSON_stringify_event pre startDashboardServer in
  let closed := step JSON_stringify_event s (Close ws) in
  let s' := run JSON_stringify_event post closed in
  is_Some (sockets s !! ws) →
  (ws ∉ (lid <$> listeners (bus closed))) ∧
  (ws ∉ (lid <$> listeners (bus s'))) ∧
  sockets s' !! ws = sockets closed !! ws ∧
  receivedBy ws s' = receivedBy ws closed ∧
  ∀ e c, c ∈ invoked (emitDashboard e (bus s') (sockets s')) → c.1 ≠ ws.
Proof.
  intros s closed s' [sock Hsock].
  pose proof (run_consistent JSON_stringify_event pre _
                (start_consistent JSON_stringify_event)) as Hs.
  fold s in Hs.
  destruct (close_step JSON_stringify_event s ws sock Hs Hsock)
    as (Hgone & sock' & Hsock' & Hclosed & _).
  fold closed in Hgone, Hsock'.
  pose proof (step_consistent JSON_stringify_event s (Close ws) Hs) as Hs1.
  fold closed in Hs1.
  destruct (closed_socket_frame JSON_stringify_event post closed ws sock' Hs1 Hgone
              Hsock' Hclosed) as [Hgone' Hframe].
  fold s' in Hgone', Hframe.
  split_and!; [done|done|by rewrite Hframe|by unfold receivedBy; rewrite Hframe, Hsock'|].
  intros e c Hc Heq. apply emit_calls_sound in Hc as [_ Hc]. by rewrite Heq in Hc.
Qed.


(** ** The array of the emitter is private *)

Section ArrayStoreFacts.
Context {Data : Type}.
Implicit Types (this : ArrayStore.Emitter) (h : gmap nat (list (DashboardEvent Data))).
Implicit Types (e : DashboardEvent Data) (l : list (DashboardEvent Data)).

(** On the array of the emitter, [emitDashboard] is [retain]. *)
Lemma store_emitDashboard_buffer e this h l :
  h !! ArrayStore.recentEvents this = Some l →
  ArrayStore.emitDashboard e this h !! ArrayStore.recentEvents this =
    Some (retain (ArrayStore.maxEvents this) l e).
Proof.
  intros Hl. unfold ArrayStore.emitDashboard, ArrayStore.length_of,
    ArrayStore.push, ArrayStore.shift, retain.
  rewrite lookup_alter_eq, Hl. simpl.
  destruct (ArrayStore.maxEvents this <? length (Array_push l e)).
  - by rewrite lookup_alter_eq, lookup_alter_eq, Hl.
  - by rewrite lookup_alter_eq, Hl.
Qed.

(** [emitDashboard] touches no other array. *)
Lemma store_emitDashboard_frame e this h a :
  a ≠ ArrayStore.recentEvents this →
  ArrayStore.emitDashboard e this h !! a = h !! a.
Proof.
  intros Hne. unfold ArrayStore.emitDashboard, ArrayStore.push, ArrayStore.shift.
  case_match; by rewrite ?lookup_alter_ne by done.
Qed.

Lemma store_publishAll_buffer events : ∀ this h l,
  h !! ArrayStore.recentEvents this = Some l →
  ArrayStore.publishAll events this h !! ArrayStore.recentEvents this =
    Some (foldl (retain (ArrayStore.maxEvents this)) l events).
Proof.
  induction events as [|e events IH]; intros this h l Hl; [done|].
  simpl. apply IH. by apply store_emitDashboard_buffer.
Qed.

Lemma store_publishAll_frame events : ∀ this h a,
  a ≠ ArrayStore.recentEvents this →
  ArrayStore.publishAll events this h !! a = h !! a.
Proof.
  induction events as [|e events IH]; intros this h a Hne; [done|].
  simpl. etrans; [by apply IH|]. by apply store_emitDashboard_frame.
Qed.

End ArrayStoreFacts.

(** C5. [getRecentEvents()] returns a new array holding the elements of
    the buffer. The call changes no existing object, so the state of the
    bus is as before. Whatever is then written to the returned array, the
    array of the bus keeps its elements, and whatever is then published,
    the returned array keeps its own: the buffer moves on by [retain], the
    snapshot does not. *)
Theorem snapshot_is_independent_copy (Data : Type) (this : ArrayStore.Emitter)
    (h : gmap nat (list (DashboardEvent Data))) (buffer : list (DashboardEvent Data)) :
  h !! ArrayStore.recentEvents this = Some buffer →
  let snapshot := (ArrayStore.getRecentEvents this h).1 in
  let h' := (ArrayStore.getRecentEvents this h).2 in
  h !! snapshot = None ∧
  h' !! snapshot = Some buffer ∧
  (∀ a, a ≠ snapshot → h' !! a = h !! a) ∧
  h' !! ArrayStore.recentEvents this = Some buffer ∧
  (∀ l, <[snapshot := l]> h' !! ArrayStore.recentEvents this = Some buffer) ∧
  (∀ l, (ArrayStore.getRecentEvents this (<[snapshot := l]> h')).2
          !! (ArrayStore.getRecentEvents this (<[snapshot := l]> h')).1 = Some buffer) ∧
  ∀ events,
    ArrayStore.publishAll events this h' !! snapshot = Some buffer ∧
    ArrayStore.publishAll events this h' !! ArrayStore.recentEvents this =
      Some (foldl (retain (ArrayStore.maxEvents this)) buffer events).
Proof.
  intros Hbuf snapshot h'.
  assert (Hfresh : h !! snapshot = None).
  { apply not_elem_of_dom. unfold snapshot. simpl. apply is_fresh. }
  assert (Hne : snapshot ≠ ArrayStore.recentEvents this).
  { intros Heq. rewrite Heq, Hbuf in Hfresh. done. }
  assert (Hsnap : h' !! snapshot = Some buffer).
  { unfold h', snapshot. simpl. by rewrite lookup_insert_eq, Hbuf. }
  assert (Hbus : h' !! ArrayStore.recentEvents this = Some buffer).
  { unfold h'. simpl. by rewrite lookup_insert_ne. }
  split_and!; [done|done| |done| | |].
  - intros a Ha. unfold h'. simpl. by rewrite lookup_insert_ne.
  - intros l. by rewrite lookup_insert_ne.
  - intros l. simpl. by rewrite lookup_insert_eq, (lookup_insert_ne _ snapshot), Hbus.
  - intros events. split.
    + by rewrite store_publishAll_frame.
    + by apply store_publishAll_buffer.
Qed.

(** ** Telegram JIDs *)

Section JidFacts.
Implicit Types (s t p : string) (c : ascii) (x : N).

Lemma String_endsWith_unfold s t :
  String_endsWith s t =
  if String.eqb s t then true
  else match s with
       | EmptyString => false
       | String _ s' => String_endsWith s' t
       end.
Proof. by destruct s. Qed.

Lemma String_endsWith_spec s t : String_endsWith s t = true ↔ ∃ p, s = p +:+ t.
Proof.
  split.
  - induction s as [|c s IH]; rewrite String_endsWith_unfold.
    + destruct (String.eqb_spec "" t) as [<-|]; [by exists ""|done].
    + destruct (String.eqb_spec (String c s) t) as [<-|]; [by exists ""|].
      intros [p ->]%IH. by exists (String c p).
  - intros [p ->]. induction p as [|c p IH]; rewrite String_endsWith_unfold.
    + change ("" +:+ t) with t. by rewrite String.eqb_refl.
    + destruct (String.eqb (String c p +:+ t) t); [done|exact IH].
Qed.

(** What holds of a character that is a decimal digit. *)
Lemma digit_char c d :
  digit c = Some d →
  isWhiteSpace c = false ∧ c ≠ "-"%char ∧ c ≠ "+"%char ∧ c ≠ "@"%char.
Proof.
  destruct c as [[] [] [] [] [] [] [] []]; vm_compute; intros [=]; done.
Qed.

Lemma digit_pretty x : (x < 10)%N → digit (pretty_N_char x) = Some x.
Proof.
  intros Hx.
  assert (x ∈ [0; 1; 2; 3; 4; 5; 6; 7; 8; 9]%N) as Hin.
  { rewrite !elem_of_cons. lia. }
  set_unfold in Hin. by repeat destruct Hin as [->|Hin].
Qed.

(** The characters written for a number are digits, and they read back
    as that number. *)
Lemma pretty_N_go_digits x : ∀ s,
  digitPrefix s = s → digitPrefix (pretty_N_go x s) = pretty_N_go x s.
Proof.
  induction (N.lt_wf_0 x) as [x _ IH]. intros s Hs.
  destruct (decide (x = 0)%N) as [->|Hpos]; [done|].
  rewrite pretty_N_go_step by lia. apply IH.
  { apply N.div_lt; lia. }
  simpl. rewrite digit_pretty by (apply N.mod_lt; lia). by rewrite Hs.
Qed.

Lemma pretty_N_go_value x : ∀ s,
  digitsValue 0 (pretty_N_go x s) = digitsValue x s.
Proof.
  induction (N.lt_wf_0 x) as [x _ IH]. intros s.
  destruct (decide (x = 0)%N) as [->|Hpos]; [done|].
  rewrite pretty_N_go_step by lia. rewrite IH by (apply N.div_lt; lia).
  simpl. rewrite digit_pretty by (apply N.mod_lt; lia). simpl.
  f_equal. pose proof (N.div_mod x 10). lia.
Qed.

Lemma pretty_N_digits x : digitPrefix (pretty x) = pretty x.
Proof.
  unfold pretty, pretty_N. case_decide; [done|]. by apply pretty_N_go_digits.
Qed.

Lemma pretty_N_value x : digitsValue 0 (pretty x) = x.
Proof.
  unfold pretty, pretty_N. case_decide as Hx; [by rewrite Hx|].
  by rewrite pretty_N_go_value.
Qed.

Lemma pretty_N_nonempty x : pretty x ≠ "".
Proof.
  intros Hempty. destruct (decide (x = 0)%N) as [->|Hx]; [done|].
  pose proof (pretty_N_value x) as Hv. rewrite Hempty in Hv. simpl in Hv. lia.
Qed.

(** Reading a run of digits. *)
Lemma parseInt_10_digits s :
  digitPrefix s = s → s ≠ "" → parseInt_10 s = Some (Z.of_N (digitsValue 0 s)).
Proof.
  intros Hs Hne. destruct s as [|c s]; [done|].
  simpl in Hs. destruct (digit c) as [d|] eqn:Hd; [|done].
  destruct (digit_char c d Hd) as (Hws & Hminus & Hplus & _).
  unfold parseInt_10. cbn [trimStart]. rewrite Hws.
  assert (Hstrip : match String c s with
                   | String "-" s' => s'
                   | String "+" s' => s'
                   | _ => String c s
                   end = String c s).
  { clear -Hminus Hplus. by destruct c as [[] [] [] [] [] [] [] []]. }
  assert (Hsign : match String c s with String "-" _ => (-1)%Z | _ => 1%Z end = 1%Z).
  { clear -Hminus. by destruct c as [[] [] [] [] [] [] [] []]. }
  rewrite Hstrip, Hsign. simpl. rewrite Hd. simpl.
  injection Hs as Hs. by rewrite Hs, Z.mul_1_l, Hd.
Qed.

Lemma parseInt_10_Number_toString (n : Z) : parseInt_10 (Number_toString n) = Some n.
Proof.
  unfold Number_toString, pretty, pretty_Z. destruct n as [|n|n]; [done| |].
  - change (pretty n) with (pretty (N.pos n)).
    rewrite parseInt_10_digits by auto using pretty_N_digits, pretty_N_nonempty.
    by rewrite pretty_N_value.
  - change (pretty n) with (pretty (N.pos n)).
    pose proof (pretty_N_digits (N.pos n)) as Hd.
    pose proof (pretty_N_nonempty (N.pos n)) as Hne.
    pose proof (pretty_N_value (N.pos n)) as Hv.
    generalize dependent (pretty (N.pos n)). intros d Hd Hne Hv.
    unfold parseInt_10. simpl. change ("" +:+ d) with d. rewrite Hd.
    destruct d; [done|]. by rewrite Hv.
Qed.

Lemma String_replace_unfold s p t :
  String_replace s p t =
  if String.prefix p s then t +:+ String_drop (String.length p) s
  else match s with
       | EmptyString => EmptyString
       | String c s' => String c (String_replace s' p t)
       end.
Proof. by destruct s. Qed.

Lemma String_prefix_cons a p c s :
  String.prefix (String a p) (String c s) =
  if ascii_dec a c then String.prefix p s else false.
Proof. done. Qed.

(** A leading character other than ['@'] is kept by [replace]. *)
Lemma String_replace_skip c s :
  c ≠ "@"%char →
  String_replace (String c s) "@telegram" "" =
  String c (String_replace s "@telegram" "").
Proof.
  intros Hc. rewrite String_replace_unfold, String_prefix_cons.
  by destruct (ascii_dec "@" c) as [<-|_].
Qed.

(** All that [replace] removes from the JID of a chat id is the suffix. *)
Lemma String_replace_suffix s :
  digitPrefix s = s → String_replace (s +:+ "@telegram") "@telegram" "" = s.
Proof.
  induction s as [|c s IH]; [done|]. intros Hs. cbn [digitPrefix] in Hs.
  destruct (digit c) as [d|] eqn:Hd; [|done]. injection Hs as Hs.
  destruct (digit_char c d Hd) as (_ & _ & _ & Hat).
  change (String c s +:+ "@telegram") with (String c (s +:+ "@telegram")).
  by rewrite String_replace_skip, IH.
Qed.

Lemma String_replace_negative s :
  digitPrefix s = s →
  String_replace ("-" +:+ s +:+ "@telegram") "@telegram" "" = "-" +:+ s.
Proof.
  intros Hs. change ("-" +:+ s +:+ "@telegram") with (String "-" (s +:+ "@telegram")).
  by rewrite String_replace_skip, String_replace_suffix.
Qed.

End JidFacts.

(** C10. A chat id, a safe integer, is recovered from its JID; and a
    string that is not some prefix followed by ["@telegram"] has no chat
    id ([null]). *)
Theorem jid_round_trip :
  (∀ c : Z, Number_isSafeInteger c →
     jidToTelegramChatId (telegramChatIdToJid c) = Some c) ∧
  (∀ jid : string, (¬ ∃ p, jid = p +:+ "@telegram") →
     jidToTelegramChatId jid = None).
Proof.
  split.
  - intros c _. unfold jidToTelegramChatId, telegramChatIdToJid.
    assert (String_endsWith (Number_toString c +:+ "@telegram") "@telegram" = true) as ->.
    { apply String_endsWith_spec. by eexists. }
    assert (String_replace (Number_toString c +:+ "@telegram") "@telegram" ""
            = Number_toString c) as ->.
    { unfold Number_toString, pretty, pretty_Z. destruct c as [|n|n]; [done|..].
      - apply String_replace_suffix, (pretty_N_digits (N.pos n)).
      - apply String_replace_negative, (pretty_N_digits (N.pos n)). }
    simpl. by rewrite parseInt_10_Number_toString.
  - intros jid Hno. unfold jidToTelegramChatId.
    destruct (String_endsWith jid "@telegram") eqn:Hends; [|done].
    by apply String_endsWith_spec in Hends.
Qed.

(** ** Concrete runs *)

(** The scenario of the specification, with capacity 3. *)
Lemma retained_history_scenario :
  let s := busRun (OpPublish <$> [ev 1; ev 2; ev 3; ev 4; ev 5])
             {| emitter := {| recentEvents := []; maxEvents := 3; listeners := [] |};
                world := ([] : list nat); calls := [] |} in
  length (getRecentEvents (emitter s)) = 3 ∧
  getRecentEvents (emitter s) = [ev 3; ev 4; ev 5] ∧
  getRecentEvents (emitter (busStep s (OpPublish (ev 6)))) = [ev 4; ev 5; ev 6].
Proof.
  intros s.
  destruct (retained_history_bounded_fifo nat (list nat) 3 [] []
              (OpPublish <$> [ev 1; ev 2; ev 3; ev 4; ev 5]))
    as (_ & _ & Hrecent & _ & Hstep).
  destruct (Hstep (ev 6)) as [_ Hfull].
  split; [reflexivity|]. split; [exact Hrecent|]. apply Hfull. reflexivity.
Defined.

(** Two events, a viewer connects, two more events while a second viewer
    connects: the first viewer gets the history and the two live events. *)
Lemma delivery_scenario :
  let pre := [Publish (ev 1); Connect; Publish (ev 2)] in
  let post := [Publish (ev 3); Connect; Publish (ev 4)] in
  let s := run sample_stringify pre startDashboardServer in
  ∃ history live,
    JSON_stringify sample_stringify (History [ev 1; ev 2]) = Some history ∧
    mapM (λ e, JSON_stringify sample_stringify (Live e)) [ev 3; ev 4] = Some live ∧
    receivedBy (nextSocket s)
      (run sample_stringify post (step sample_stringify s Connect)) = history :: live.
Proof.
  intros pre post s.
  apply (no_gap_no_duplicate_delivery nat sample_stringify pre post).
  - simpl. lia.
  - intros i Hi. unfold post in Hi.
    repeat (apply elem_of_cons in Hi as [->|Hi]); try reflexivity.
    by apply elem_of_nil in Hi.
  - simpl. repeat (apply Forall_cons; split; [by eexists|]). apply Forall_nil_2.
Defined.

Example delivery_scenario_values :
  let pre := [Publish (ev 1); Connect; Publish (ev 2)] in
  let post := [Publish (ev 3); Connect; Publish (ev 4)] in
  let s := run sample_stringify pre startDashboardServer in
  receivedBy (nextSocket s)
    (run sample_stringify post (step sample_stringify s Connect)) =
  [history_frame ["1"; "2"]; event_frame "3"; event_frame "4"].
Proof. vm_compute. done. Qed.

(** The claim C1 as stated fails: one event has been published, with a
    payload that [JSON.stringify] refuses, and a viewer connects. The
    connection callback is left by the exception of [JSON.stringify]
    before [send] is called and before the handler is registered: the
    viewer gets no history, and nothing of what is published afterwards. *)
Lemma history_lost_when_not_serialisable :
  let pre := [Publish (ev 13)] in
  let s := run sample_stringify pre startDashboardServer in
  let ws := nextSocket s in
  let opened := {| readyState := OPEN; sendCalls := []; closeListener := false |} in
  length (published pre) = 1 ∧
  getRecentEvents (bus s) = [ev 13] ∧
  returns (onConnection sample_stringify ws
             {| bus := bus s; sockets := <[ws:=opened]> (sockets s) |}) = false ∧
  receivedBy ws (step sample_stringify s Connect) = [] ∧
  (ws ∉ lid <$> listeners (bus (step sample_stringify s Connect))) ∧
  receivedBy ws (run sample_stringify [Publish (ev 1)] (step sample_stringify s Connect))
    = [] ∧
  ¬ (∀ (pre post : list (Input nat)),
       length (published pre) ≤ 100 →
       (∀ i, i ∈ post →
             closes (nextSocket (run sample_stringify pre startDashboardServer)) i = false) →
       ∃ history live,
         receivedBy (nextSocket (run sample_stringify pre startDashboardServer))
           (run sample_stringify post
              (step sample_stringify (run sample_stringify pre startDashboardServer)
                 Connect))
         = history :: live).
Proof.
  intros pre s ws opened. split_and!; [done|done|done|done| |done|].
  - simpl. apply not_elem_of_nil.
  - intros Hall. destruct (Hall pre []) as (history & live & Hrecv).
    + simpl. lia.
    + by intros i ?%elem_of_nil.
    + discriminate Hrecv.
Qed.

(** A viewer connects, gets one event and leaves; later events reach the
    second viewer only. *)
Lemma disconnect_scenario :
  let pre := [Connect; Publish (ev 1)] in
  let post := [Publish (ev 2); Connect; Publish (ev 3)] in
  let s := run sample_stringify pre startDashboardServer in
  let s' := run sample_stringify post (step sample_stringify s (Close 0)) in
  is_Some (sockets s !! 0) ∧
  receivedBy 0 s' = receivedBy 0 (step sample_stringify s (Close 0)).
Proof.
  intros pre post s s'.
  assert (is_Some (sockets s !! 0)) as Hsock by (vm_compute; eauto).
  split; [exact Hsock|].
  destruct (disconnect_stops_delivery nat sample_stringify pre post 0 Hsock)
    as (_ & _ & _ & Hreceived & _).
  exact Hreceived.
Defined.

Example disconnect_scenario_values :
  let s := run sample_stringify [Connect; Publish (ev 1)] startDashboardServer in
  let s' := run sample_stringify [Publish (ev 2); Connect; Publish (ev 3)]
              (step sample_stringify s (Close 0)) in
  receivedBy 0 s' = [history_frame []; event_frame "1"] ∧
  receivedBy 1 s' = [history_frame ["1"; "2"]; event_frame "3"].
Proof. vm_compute. done. Qed.

(** The claim C3 as stated fails: a registered callback that throws makes
    [emitDashboard] throw to the producer. *)
Lemma publish_propagates_listener_exception :
  let bus := on (failing 0) dashboardEvents in
  (∀ event w, returns (outcome (emitDashboard event bus w)) = false) ∧
  outcome (emitDashboard (ev 1) bus []) = Throw "listener failed" [] ∧
  ¬ (∀ (bus : DashboardEventEmitter nat (list nat)) event w,
       returns (outcome (emitDashboard event bus w)) = true).
Proof.
  intros bus. split_and!; [done|done|].
  intros Hall. by specialize (Hall bus (ev 1) []).
Qed.

(** Two callbacks that return, then one that throws after them. *)
Lemma publish_returns_scenario :
  let bus := on (logging 1) (on (logging 0) dashboardEvents) in
  let bus' := on (logging 2) (on (failing 1) (on (logging 0) dashboardEvents)) in
  returns (outcome (emitDashboard (ev 1) bus [])) = true ∧
  recentEvents (emitter_after (emitDashboard (ev 1) bus [])) = [ev 1] ∧
  outcome (emitDashboard (ev 1) bus' []) = Throw "listener failed" [0] ∧
  recentEvents (emitter_after (emitDashboard (ev 1) bus' [])) = [ev 1].
Proof.
  intros bus bus'.
  destruct (publish_returns_unless_listener_throws nat (list nat) bus (ev 1) [])
    as (Hbuf & _ & _ & Hret & _).
  destruct (publish_returns_unless_listener_throws nat (list nat) bus' (ev 1) [])
    as (Hbuf' & _ & _ & _ & Hthrow).
  split_and!; [|exact Hbuf| |exact Hbuf'].
  - apply Hret. intros f Hf w'. unfold bus in Hf. simpl in Hf.
    repeat (apply elem_of_cons in Hf as [->|Hf]); try reflexivity.
    by apply elem_of_nil in Hf.
  - apply Hthrow. exists [logging 0], (failing 1), [logging 2], [0].
    split_and!; reflexivity.
Defined.


(** The connection callback has no test of its own: it is the library
    that gives it an OPEN socket. Run on a socket in another state, which
    the server never does, it would call [send] all the same. *)
Example onConnection_calls_send :
  let sock := {| readyState := CLOSED; sendCalls := []; closeListener := false |} in
  let s : Server nat := {| bus := dashboardEvents; sockets := {[0 := sock]} |} in
  ∃ sock', sockets (state_of (onConnection sample_stringify 0 s)) !! 0 = Some sock' ∧
           sendCalls sock' = [(CLOSED, history_frame [])].
Proof. intros sock s. eexists. split; reflexivity. Qed.



Lemma unsubscribe_scenario :
  let bus := on (logging 7) (on (logging 3) dashboardEvents) in
  off (logging 5) bus = bus ∧
  off (logging 3) (off (logging 3) bus) = off (logging 3) bus.
Proof.
  intros bus.
  destruct (unsubscribe_idempotent nat (list nat) bus (logging 5)) as (Hunknown & _).
  destruct (unsubscribe_idempotent nat (list nat) bus (logging 3)) as (_ & Htwice & _).
  split.
  - apply Hunknown. simpl. intros Hin.
    repeat (apply elem_of_cons in Hin as [Hin|Hin]); try discriminate Hin.
    by apply elem_of_nil in Hin.
  - apply Htwice. simpl. apply NoDup_cons. split; [|apply NoDup_singleton].
    intros Hin%list_elem_of_singleton. discriminate Hin.
Defined.

(** The same callback registered twice: each [off] removes one
    registration, the most recent first. *)
Example unsubscribe_registered_twice :
  let bus := on (logging 3) (on (logging 7) (on (logging 3) dashboardEvents)) in
  lid <$> listeners (off (logging 3) bus) = [3; 7] ∧
  lid <$> listeners (off (logging 3) (off (logging 3) bus)) = [7].
Proof. done. Qed.

Lemma snapshot_scenario :
  let this := {| ArrayStore.recentEvents := 0; ArrayStore.maxEvents := 3 |} in
  let h : gmap nat (list (DashboardEvent nat)) := {[0 := [ev 1; ev 2]]} in
  let snapshot := (ArrayStore.getRecentEvents this h).1 in
  let h' := (ArrayStore.getRecentEvents this h).2 in
  h !! 0 = Some [ev 1; ev 2] ∧
  ArrayStore.publishAll [ev 3; ev 4] this h' !! snapshot = Some [ev 1; ev 2] ∧
  ArrayStore.publishAll [ev 3; ev 4] this h' !! 0 = Some [ev 2; ev 3; ev 4].
Proof.
  intros this h snapshot h'.
  assert (Hbuf : h !! ArrayStore.recentEvents this = Some [ev 1; ev 2]) by reflexivity.
  split; [exact Hbuf|].
  destruct (snapshot_is_independent_copy nat this h [ev 1; ev 2] Hbuf)
    as (_ & _ & _ & _ & _ & _ & Hpub).
  exact (Hpub [ev 3; ev 4]).
Defined.

Lemma jid_scenario :
  Number_isSafeInteger (-1001234567890) ∧
  jidToTelegramChatId (telegramChatIdToJid (-1001234567890)) = Some (-1001234567890)%Z.
Proof.
  assert (Number_isSafeInteger (-1001234567890)) as Hsafe.
  { unfold Number_isSafeInteger. lia. }
  split; [exact Hsafe|]. destruct jid_round_trip as [Hround _]. by apply Hround.
Defined.

Example jid_of_chat_id :
  telegramChatIdToJid (-1001234567890) = "-1001234567890@telegram".
Proof. vm_compute. done. Qed.

Example jid_other_network : jidToTelegramChatId "12345@g.us" = None.
Proof. done. Qed.

Example jid_without_digits : jidToTelegramChatId "abc@telegram" = None.
Proof. done. Qed.

(** [parseInt] stops at the first character that is not a digit. *)
Example jid_digits_then_text : jidToTelegramChatId "12abc@telegram" = Some 12%Z.
Proof. done. Qed.

(** [replace] removes the first ["@telegram"], not the suffix. *)
Example jid_suffix_twice : jidToTelegramChatId "@telegram5@telegram" = Some 5%Z.
Proof. done. Qed.

(** * Further properties *)

(** ** The server over its whole life *)

Section ServerInvariants.
Context {Data : Type} (JSON_stringify_event : DashboardEvent Data → option string).
Implicit Types (s : Server Data) (sock : WebSocket) (ws c : nat).
Implicit Types (e : DashboardEvent Data) (inputs : list (Input Data)).

Abbreviation runs inputs := (run JSON_stringify_event inputs (@startDashboardServer Data)).

Lemma runs_consistent inputs : consistent JSON_stringify_event (runs inputs).
Proof. apply run_consistent, start_consistent. Qed.

Lemma runs_recentEvents inputs :
  recentEvents (bus (runs inputs)) = lastn 100 (published inputs).
Proof. by rewrite run_recentEvents. Qed.

Lemma window_later sock (P : list (DashboardEvent Data)) e :
  readyState sock ≠ OPEN → window JSON_stringify_event P sock →
  window JSON_stringify_event (P ++ [e]) sock.
Proof.
  intros Hclosed (a & h & evs & b & history & live & -> & Hlen & Hfull & Hh & Hl & Hcalls & _).
  exists a, h, evs, (b ++ [e]), history, live. split_and!; try done.
  by rewrite <-!(assoc_L (++)).
Qed.

(** A socket whose connection callback has run to its end has its handler
    registered until it is closed. *)
Lemma runs_registered inputs : ∀ ws sock,
  sockets (runs inputs) !! ws = Some sock →
  closeListener sock = true →
  readyState sock ≠ CLOSED →
  ws ∈ lid <$> listeners (bus (runs inputs)).
Proof.
  induction inputs as [|i inputs IH] using rev_ind; intros ws sock.
  { simpl. by rewrite lookup_empty. }
  pose proof (runs_consistent inputs) as Hs.
  rewrite run_snoc. set (s := runs inputs) in *.
  destruct i as [e| |c|c].
  - destruct (publish_step JSON_stringify_event s e Hs) as (-> & ->).
    destruct (sockets s !! ws) as [sock0|] eqn:Hsock0; [|by case_decide].
    case_decide; simpl; intros [= <-];
      rewrite ?deliver_closeListener, ?deliver_readyState; by apply IH.
  - destruct (mapM JSON_stringify_event (recentEvents (bus s))) as [history|] eqn:Hh.
    + rewrite (connect_step _ s history Hh). simpl. rewrite fmap_app, elem_of_app.
      destruct (decide (nextSocket s = ws)) as [<-|Hne].
      * intros _ _ _. right. by left.
      * rewrite lookup_insert_ne by done. intros. left. by eapply IH.
    + rewrite (connect_step_throws _ s Hh). simpl.
      destruct (decide (nextSocket s = ws)) as [<-|Hne].
      * rewrite lookup_insert_eq. by intros [= <-].
      * rewrite lookup_insert_ne by done. apply IH.
  - simpl. destruct (sockets s !! c) as [sockc|] eqn:Hc; [|by apply IH].
    case_decide as Hopen; [|by apply IH]. simpl.
    destruct (decide (c = ws)) as [->|Hne].
    + rewrite lookup_insert_eq. intros [= <-]. simpl. intros Hcl _.
      apply (IH ws sockc Hc Hcl). by rewrite Hopen.
    + rewrite lookup_insert_ne by done. by apply IH.
  - simpl. destruct (sockets s !! c) as [sockc|] eqn:Hc; [|by apply IH].
    case_decide as Hclosed; [by apply IH|].
    destruct (decide (c = ws)) as [->|Hne].
    + destruct (closeListener sockc); simpl; rewrite lookup_insert_eq; by intros [= <-].
    + destruct (closeListener sockc); simpl; rewrite lookup_insert_ne by done;
        [|by apply IH].
      intros Hsock Hcl Hopen. apply remove_last_other; [done|]. by eapply IH.
Qed.

(** When every event published is one [JSON.stringify] accepts, no
    connection callback is left early, and what has been sent on a socket
    is a window on the published events. *)
Lemma runs_sockets inputs :
  Forall (serialisable JSON_stringify_event) (published inputs) →
  ∀ ws sock,
    sockets (runs inputs) !! ws = Some sock →
    closeListener sock = true ∧
    window JSON_stringify_event (published inputs) sock.
Proof.
  induction inputs as [|i inputs IH] using rev_ind; intros Hser ws sock.
  { simpl. by rewrite lookup_empty. }
  rewrite published_snoc in Hser. apply Forall_app in Hser as [Hser Hi].
  specialize (IH Hser).
  pose proof (runs_consistent inputs) as Hs.
  pose proof (runs_recentEvents inputs) as Hrecent.
  pose proof (runs_registered inputs) as Hreg.
  rewrite run_snoc, published_snoc.
  set (s := runs inputs) in *. set (P := published inputs) in *.
  destruct i as [e| |c|c].
  - apply Forall_singleton in Hi as [t Ht].
    destruct (publish_step JSON_stringify_event s e Hs) as (_ & ->).
    case_decide as Hin.
    + destruct (sockets s !! ws) as [sock0|] eqn:Hsock0; [|done].
      intros [= <-]. destruct (IH ws sock0 Hsock0) as [Hcl Hw].
      rewrite deliver_closeListener. split; [done|].
      destruct (decide (readyState sock0 = OPEN)) as [Hopen|Hclosed].
      * destruct Hw as (a & h & evs & b & history & live
                          & HP & Hlen & Hfull & Hh & Hl & Hcalls & Hb).
        rewrite (Hb Hopen), app_nil_r in HP.
        exists a, h, (evs ++ [e]), [], history, (live ++ [event_frame t]).
        split_and!; try done.
        -- by rewrite HP, app_nil_r, <-!(assoc_L (++)).
        -- apply mapM_snoc; [done|]. simpl. by rewrite Ht.
        -- by rewrite (deliver_open _ _ _ t), Hcalls, fmap_app.
      * rewrite deliver_not_open by done. by apply window_later.
    + intros Hsock. destruct (IH ws sock Hsock) as [Hcl Hw]. split; [done|].
      apply window_later; [|done]. intros Hopen. apply Hin.
      apply (Hreg ws sock Hsock Hcl). by rewrite Hopen.
  - rewrite app_nil_r.
    assert (Forall (serialisable JSON_stringify_event) (lastn 100 P)) as Hlast
      by by apply Forall_drop.
    destruct (serialisable_texts _ _ Hlast) as [history Hh].
    rewrite (connect_step _ s history) by by rewrite Hrecent.
    cbn [bus sockets on listeners].
    destruct (decide (nextSocket s = ws)) as [<-|Hne].
    + rewrite lookup_insert_eq. intros [= <-]. split; [done|].
      exists (take (length P - 100) P), (lastn 100 P), [], [], (history_frame history), [].
      split_and!; simpl; try done.
      * unfold lastn. by rewrite !app_nil_r, take_drop.
      * rewrite lastn_length. lia.
      * destruct (decide (length P ≤ 100)) as [Hle|Hgt].
        -- left. by replace (length P - 100) with 0 by lia.
        -- right. rewrite lastn_length. lia.
      * by rewrite Hh.
    + rewrite lookup_insert_ne by done. apply IH.
  - rewrite app_nil_r. simpl.
    destruct (sockets s !! c) as [sockc|] eqn:Hc; [|by apply IH].
    case_decide as Hopen; [|by apply IH]. simpl.
    destruct (decide (c = ws)) as [->|Hne].
    + rewrite lookup_insert_eq. intros [= <-]. simpl.
      destruct (IH ws sockc Hc) as [Hcl Hw]. split; [done|].
      destruct Hw as (a & h & evs & b & history & live
                        & HP & Hlen & Hfull & Hh & Hl & Hcalls & _).
      by exists a, h, evs, b, history, live.
    + rewrite lookup_insert_ne by done. by apply IH.
  - rewrite app_nil_r. simpl.
    destruct (sockets s !! c) as [sockc|] eqn:Hc; [|by apply IH].
    case_decide as Hclosed; [by apply IH|].
    assert (Hother : ∀ s', sockets s' = <[c := {| readyState := CLOSED;
                                                sendCalls := sendCalls sockc;
                                                closeListener := closeListener sockc |}]> (sockets s) →
              sockets s' !! ws = Some sock →
              closeListener sock = true ∧ window JSON_stringify_event P sock).
    { intros s' ->. destruct (decide (c = ws)) as [->|Hne].
      - rewrite lookup_insert_eq. intros [= <-]. simpl.
        destruct (IH ws sockc Hc) as [Hcl (a & h & evs & b & history & live
                                            & HP & Hlen & Hfull & Hh & Hl & Hcalls & _)].
        split; [done|]. by exists a, h, evs, b, history, live.
      - rewrite lookup_insert_ne by done. apply IH. }
    destruct (closeListener sockc); by apply Hother.
Qed.

(** A socket that is not OPEN is never written to again. *)
Lemma not_open_frame post : ∀ s ws sock,
  consistent JSON_stringify_event s →
  sockets s !! ws = Some sock →
  readyState sock ≠ OPEN →
  ∃ sock', sockets (run JSON_stringify_event post s) !! ws = Some sock' ∧
           sendCalls sock' = sendCalls sock ∧ readyState sock' ≠ OPEN.
Proof.
  induction post as [|i post IH] using rev_ind; intros s ws sock Hs Hsock Hclosed.
  { by exists sock. }
  destruct (IH s ws sock Hs Hsock Hclosed) as (sock' & Hsock' & Hcalls & Hclosed').
  pose proof (run_consistent JSON_stringify_event post s Hs) as Hs'.
  rewrite run_snoc. clear IH Hs Hsock. set (s' := run JSON_stringify_event post s) in *.
  destruct i as [e| |c|c].
  - destruct (publish_step JSON_stringify_event s' e Hs') as (_ & Hlook).
    exists sock'. rewrite Hlook, Hsock'. split; [|done].
    case_decide; [|done]. simpl. by rewrite deliver_not_open.
  - exists sock'. split; [|done].
    assert (nextSocket s' ≠ ws) as Hne.
    { intros Heq. pose proof (nextSocket_fresh s') as Hfresh.
      rewrite Heq, Hsock' in Hfresh. done. }
    destruct (mapM JSON_stringify_event (recentEvents (bus s'))) as [history|] eqn:Hh.
    + rewrite (connect_step _ s' history Hh). simpl. by rewrite lookup_insert_ne.
    + rewrite (connect_step_throws _ s' Hh). simpl. by rewrite lookup_insert_ne.
  - simpl. destruct (decide (c = ws)) as [->|Hne].
    + rewrite Hsock', decide_False by done. by exists sock'.
    + exists sock'. split; [|done].
      destruct (sockets s' !! c) as [sockc|]; [case_decide|]; simpl;
        rewrite ?lookup_insert_ne by done; done.
  - simpl. destruct (decide (c = ws)) as [->|Hne].
    + rewrite Hsock'. case_decide as Hc; [by exists sock'|].
      exists {| readyState := CLOSED; sendCalls := sendCalls sock';
                closeListener := closeListener sock' |}.
      split; [|done].
      destruct (closeListener sock'); simpl; by rewrite lookup_insert_eq.
    + exists sock'. split; [|done].
      destruct (sockets s' !! c) as [sockc|];
        [case_decide; [|destruct (closeListener sockc)]|]; simpl;
        rewrite ?lookup_insert_ne by done; done.
Qed.

(** The handlers registered are those of the sockets whose connection
    callback ran to its end and that are not closed. *)
Lemma runs_listeners inputs ws :
  ws ∈ lid <$> listeners (bus (runs inputs)) ↔
  ∃ sock, sockets (runs inputs) !! ws = Some sock ∧
          closeListener sock = true ∧ readyState sock ≠ CLOSED.
Proof.
  destruct (runs_consistent inputs) as [Hnd Hall]. split.
  - intros (f & -> & Hf)%list_elem_of_fmap_1.
    destruct (Hall f Hf) as (_ & sock & Hsock & Hcl & Hopen). by exists sock.
  - intros (sock & Hsock & Hcl & Hopen). by apply (runs_registered inputs ws sock).
Qed.

End ServerInvariants.

(** X1. Whatever was published before, 100 events or more, a viewer that
    connects is sent the last 100 events (all of them when there are
    fewer) as one history message, and then every event published while
    its socket is not closed, once each, in order; the events of the
    history and those published afterwards are taken to be ones that
    [JSON.stringify] accepts. *)
Theorem history_is_the_last_100 (Data : Type)
    (JSON_stringify_event : DashboardEvent Data → option string)
    (pre post : list (Input Data)) :
  let s := run JSON_stringify_event pre startDashboardServer in
  let ws := nextSocket s in
  let s' := run JSON_stringify_event post (step JSON_stringify_event s Connect) in
  (∀ i, i ∈ post → closes ws i = false) →
  Forall (serialisable JSON_stringify_event) (lastn 100 (published pre)) →
  Forall (serialisable JSON_stringify_event) (published post) →
  ∃ history live,
    JSON_stringify JSON_stringify_event (History (lastn 100 (published pre)))
      = Some history ∧
    mapM (λ e, JSON_stringify JSON_stringify_event (Live e)) (published post)
      = Some live ∧
    receivedBy ws s' = history :: live.
Proof.
  intros s ws s' Hopen Hpre Hpost.
  pose proof (runs_consistent JSON_stringify_event pre) as Hs. fold s in Hs.
  pose proof (runs_recentEvents JSON_stringify_event pre) as Hrecent. fold s in Hrecent.
  destruct (serialisable_texts _ _ Hpre) as [hs Hhs].
  pose proof (step_consistent JSON_stringify_event s Connect Hs) as Hs1.
  unfold s'. revert Hs1. rewrite (connect_step _ s hs) by by rewrite Hrecent.
  fold ws. intros Hs1.
  set (sock := {| readyState := OPEN;
                  sendCalls := [(OPEN, history_frame hs)];
                  closeListener := true |}) in *.
  destruct (open_socket_stream JSON_stringify_event post _ ws sock Hs1)
    as (_ & sock' & ls & Hsock' & _ & _ & Hls & Hcalls); [| |done|done|done|].
  { simpl. rewrite fmap_app. apply elem_of_app. right. by left. }
  { simpl. apply lookup_insert_eq. }
  exists (history_frame hs), (event_frame <$> ls).
  split_and!; [by apply history_message|by apply live_messages|].
  unfold receivedBy, received. rewrite Hsock', Hcalls. simpl.
  f_equal. apply received_open.
Qed.

(** X2. As long as every event published is one that [JSON.stringify]
    accepts, what a viewer has been sent so far is at any moment a window
    on the sequence of published events, without gap or repetition: one
    history message with at most 100 events, as many as had been published
    up to 100, followed by one message for each of the events that came
    next; while its socket is OPEN the window reaches the latest event.
    Every one of these calls of [send] was made on an OPEN socket. *)
Theorem every_viewer_sees_a_window (Data : Type)
    (JSON_stringify_event : DashboardEvent Data → option string)
    (inputs : list (Input Data)) (ws : nat) (sock : WebSocket) :
  Forall (serialisable JSON_stringify_event) (published inputs) →
  sockets (run JSON_stringify_event inputs startDashboardServer) !! ws = Some sock →
  ∃ a h evs b history live,
    published inputs = a ++ h ++ evs ++ b ∧
    length h ≤ 100 ∧
    (a = [] ∨ length h = 100) ∧
    JSON_stringify JSON_stringify_event (History h) = Some history ∧
    mapM (λ e, JSON_stringify JSON_stringify_event (Live e)) evs = Some live ∧
    received sock = history :: live ∧
    guarded sock ∧
    (readyState sock = OPEN → b = []).
Proof.
  intros Hser Hsock.
  destruct (runs_sockets JSON_stringify_event inputs Hser ws sock Hsock)
    as [_ (a & h & evs & b & history & live & HP & Hlen & Hfull & Hh & Hl & Hcalls & Hb)].
  exists a, h, evs, b, history, live. split_and!; try done.
  - unfold received. rewrite Hcalls. simpl. f_equal.
    rewrite <-(list_fmap_id live) at 2. apply (received_open (λ m, m) live).
  - by apply (run_guarded JSON_stringify_event inputs ws).
Qed.

(** X3. Once a socket has left the OPEN state, closing or closed, no
    [send] is ever made on it again, whatever is published and even while
    its handler is still registered; the events published from then on are
    not kept for it. *)
Theorem nothing_sent_once_not_open (Data : Type)
    (JSON_stringify_event : DashboardEvent Data → option string)
    (pre post : list (Input Data)) (ws : nat) (sock : WebSocket) :
  let s := run JSON_stringify_event pre startDashboardServer in
  sockets s !! ws = Some sock →
  readyState sock ≠ OPEN →
  ∃ sock', sockets (run JSON_stringify_event post s) !! ws = Some sock' ∧
           sendCalls sock' = sendCalls sock ∧
           readyState sock' ≠ OPEN.
Proof.
  intros s Hsock Hclosed.
  by apply not_open_frame; [apply runs_consistent|..].
Qed.

(** X4. At any moment the handlers registered on the emitter are those
    of the sockets whose connection callback ran to its end (their 'close'
    listener is in place) and that are not closed, each registered once: no
    handler is left behind by a closed connection. A connection whose
    history [JSON.stringify] refuses stays without handler; when every
    event published is one that [JSON.stringify] accepts there is no such
    connection, and the handlers registered are those of the sockets that
    are not closed. *)
Theorem subscribed_iff_not_closed (Data : Type)
    (JSON_stringify_event : DashboardEvent Data → option string)
    (inputs : list (Input Data)) :
  let s := run JSON_stringify_event inputs startDashboardServer in
  NoDup (lid <$> listeners (bus s)) ∧
  (∀ ws, ws ∈ lid <$> listeners (bus s) ↔
         ∃ sock, sockets s !! ws = Some sock ∧
                 closeListener sock = true ∧ readyState sock ≠ CLOSED) ∧
  (mapM JSON_stringify_event (getRecentEvents (bus s)) = None →
   nextSocket s ∉ lid <$> listeners (bus (step JSON_stringify_event s Connect))) ∧
  (Forall (serialisable JSON_stringify_event) (published inputs) →
   ∀ ws, ws ∈ lid <$> listeners (bus s) ↔
         ∃ sock, sockets s !! ws = Some sock ∧ readyState sock ≠ CLOSED).
Proof.
  intros s. destruct (runs_consistent JSON_stringify_event inputs) as [Hnd Hall].
  fold s in Hnd, Hall.
  split_and!; [done|apply runs_listeners| |].
  - intros Hh. rewrite (connect_step_throws _ s Hh). simpl.
    intros (f & Hf & Hin)%list_elem_of_fmap_1.
    destruct (Hall f Hin) as (_ & sock & Hsock & _).
    pose proof (nextSocket_fresh s) as Hfresh. rewrite Hf, Hsock in Hfresh. done.
  - intros Hser ws. unfold s. rewrite runs_listeners. split.
    + intros (sock & Hsock & _ & Hopen). by exists sock.
    + intros (sock & Hsock & Hopen). exists sock. split_and!; [done| |done].
      by destruct (runs_sockets JSON_stringify_event inputs Hser ws sock Hsock).
Qed.

(** X5. On the running server the publish of an event that
    [JSON.stringify] accepts never throws to the producer. It calls, once,
    the handler of every connection that is not closed and whose connection
    callback ran to its end; these are all the connections that are not
    closed when the events published before were accepted as well. *)
Theorem server_publish_returns (Data : Type)
    (JSON_stringify_event : DashboardEvent Data → option string)
    (inputs : list (Input Data)) (e : DashboardEvent Data) :
  let s := run JSON_stringify_event inputs startDashboardServer in
  let r := emitDashboard e (bus s) (sockets s) in
  serialisable JSON_stringify_event e →
  returns (outcome r) = true ∧
  NoDup (invoked r) ∧
  (∀ ws, (ws, e) ∈ invoked r ↔
         ∃ sock, sockets s !! ws = Some sock ∧
                 closeListener sock = true ∧ readyState sock ≠ CLOSED) ∧
  (Forall (serialisable JSON_stringify_event) (published inputs) →
   ∀ ws, (ws, e) ∈ invoked r ↔
         ∃ sock, sockets s !! ws = Some sock ∧ readyState sock ≠ CLOSED).
Proof.
  intros s r He.
  destruct (publish_returns JSON_stringify_event s e
              (runs_consistent JSON_stringify_event inputs) He) as (Hinv & Hret).
  fold r in Hinv, Hret.
  destruct (runs_consistent JSON_stringify_event inputs) as [Hnd _]. fold s in Hnd.
  assert (Hmem : ∀ ws, (ws, e) ∈ invoked r ↔ ws ∈ lid <$> listeners (bus s)).
  { intros ws. rewrite Hinv. split.
    - by intros (c & [= ->] & Hc)%list_elem_of_fmap_1.
    - intros Hin. by apply (list_elem_of_fmap_2 (λ c, (c, e))). }
  split_and!; [done| | |].
  - rewrite Hinv. apply NoDup_fmap_2; [|done]. by intros i j [= ->].
  - intros ws. rewrite Hmem. apply runs_listeners.
  - intros Hser ws. rewrite Hmem. unfold s. rewrite runs_listeners. split.
    + intros (sock & Hsock & _ & Hopen). by exists sock.
    + intros (sock & Hsock & Hopen). exists sock. split_and!; [done| |done].
      by destruct (runs_sockets JSON_stringify_event inputs Hser ws sock Hsock).
Qed.

(** ** Registrations *)

Section RegistrationFacts.
Context {Data World : Type}.
Implicit Types (f g : Listener Data World) (fs : list (Listener Data World)).

Lemma remove_last_split i fs1 g fs2 :
  lid g = i → i ∉ lid <$> fs2 → remove_last i (fs1 ++ g :: fs2) = fs1 ++ fs2.
Proof.
  intros Hg Hnot. induction fs1 as [|f fs1 IH]; simpl.
  - rewrite bool_decide_eq_false_2 by done. by rewrite bool_decide_eq_true_2.
  - rewrite bool_decide_eq_true_2, IH; [done|].
    rewrite fmap_app, elem_of_app. right. rewrite fmap_cons, Hg. by left.
Qed.

Lemma off_on (bus : DashboardEventEmitter Data World) f : off f (on f bus) = bus.
Proof.
  destruct bus as [recent cap fs]. unfold off, on. simpl. f_equal.
  rewrite (remove_last_split (lid f) fs f []); [by rewrite app_nil_r|done|].
  apply not_elem_of_nil.
Qed.

End RegistrationFacts.

(** X6. Subscribing a callback and unsubscribing it again gives back the
    emitter as it was, listeners in the same order, also when the same
    callback had been registered before. So a viewer that connects and is
    closed at once leaves the emitter of the server, listeners and buffer,
    as it found it. *)
Theorem off_undoes_on (Data World : Type)
    (emitter : DashboardEventEmitter Data World) (f : Listener Data World) :
  off f (on f emitter) = emitter ∧
  ∀ (JSON_stringify_event : DashboardEvent Data → option string) (s : Server Data),
    bus (step JSON_stringify_event (step JSON_stringify_event s Connect)
           (Close (nextSocket s))) =
    bus s.
Proof.
  split; [apply off_on|]. intros JSON_stringify_event s.
  destruct (mapM JSON_stringify_event (recentEvents (bus s))) as [history|] eqn:Hh.
  - rewrite (connect_step _ s history Hh). cbn [step sockets]. rewrite lookup_insert_eq.
    rewrite decide_False by discriminate. cbn [closeListener onClose bus].
    apply off_on.
  - rewrite (connect_step_throws _ s Hh). cbn [step sockets]. rewrite lookup_insert_eq.
    by rewrite decide_False by discriminate.
Qed.


(** ** Chat ids and JIDs, continued *)

Section JidParsing.
Implicit Types (s t d : string) (c : ascii).

Lemma String_append_assoc s t u : (s +:+ t) +:+ u = s +:+ t +:+ u.
Proof.
  induction s as [|c s IH]; [done|].
  change (String c ((s +:+ t) +:+ u) = String c (s +:+ t +:+ u)). by rewrite IH.
Qed.

Lemma String_append_chars s t :
  list_ascii_of_string (s +:+ t) = list_ascii_of_string s ++ list_ascii_of_string t.
Proof.
  induction s as [|c s IH]; [done|].
  change (c :: list_ascii_of_string (s +:+ t) =
          c :: list_ascii_of_string s ++ list_ascii_of_string t). by rewrite IH.
Qed.

(** Without an ['@'] before the suffix, the suffix is what [replace] removes. *)
Lemma String_replace_no_at s :
  "@"%char ∉ list_ascii_of_string s →
  String_replace (s +:+ "@telegram") "@telegram" "" = s.
Proof.
  induction s as [|c s IH]; [done|]. cbn [list_ascii_of_string].
  intros [Hc Hs]%not_elem_of_cons.
  change (String c s +:+ "@telegram") with (String c (s +:+ "@telegram")).
  rewrite String_replace_skip by done. by rewrite IH.
Qed.

Lemma digits_no_at d : digitPrefix d = d → "@"%char ∉ list_ascii_of_string d.
Proof.
  induction d as [|c d IH]; [intros _; apply not_elem_of_nil|].
  cbn [digitPrefix list_ascii_of_string].
  destruct (digit c) as [x|] eqn:Hx; [|done]. intros [= Hd].
  destruct (digit_char c x Hx) as (_ & _ & _ & Hat).
  apply not_elem_of_cons. split; [done|by apply IH].
Qed.

Lemma digitPrefix_then d t :
  digitPrefix d = d → digitPrefix t = "" → digitPrefix (d +:+ t) = d.
Proof.
  intros Hd Ht. induction d as [|c d IH]; [done|].
  cbn [digitPrefix] in Hd.
  change (String c d +:+ t) with (String c (d +:+ t)). cbn [digitPrefix].
  destruct (digit c); [|done]. injection Hd as Hd. by rewrite IH.
Qed.

(** [parseInt] reads the digits and ignores what follows them. *)
Lemma parseInt_10_digits_then d t :
  digitPrefix d = d → d ≠ "" → digitPrefix t = "" →
  parseInt_10 (d +:+ t) = Some (Z.of_N (digitsValue 0 d)).
Proof.
  intros Hd Hne Ht. pose proof (digitPrefix_then d t Hd Ht) as Hdt.
  destruct d as [|c d]; [done|].
  change (String c d +:+ t) with (String c (d +:+ t)) in *.
  cbn [digitPrefix] in Hd. destruct (digit c) as [x|] eqn:Hx; [|done].
  destruct (digit_char c x Hx) as (Hws & Hminus & Hplus & _).
  unfold parseInt_10. cbn [trimStart]. rewrite Hws.
  assert (Hstrip : match String c (d +:+ t) with
                   | String "-" s' => s'
                   | String "+" s' => s'
                   | _ => String c (d +:+ t)
                   end = String c (d +:+ t)).
  { clear -Hminus Hplus. by destruct c as [[] [] [] [] [] [] [] []]. }
  assert (Hsign : match String c (d +:+ t) with
                  | String "-" _ => (-1)%Z
                  | _ => 1%Z
                  end = 1%Z).
  { clear -Hminus. by destruct c as [[] [] [] [] [] [] [] []]. }
  rewrite Hstrip, Hsign, Hdt. by rewrite Z.mul_1_l.
Qed.

Lemma parseInt_10_minus_digits_then d t :
  digitPrefix d = d → d ≠ "" → digitPrefix t = "" →
  parseInt_10 ("-" +:+ d +:+ t) = Some (- Z.of_N (digitsValue 0 d))%Z.
Proof.
  intros Hd Hne Ht. pose proof (digitPrefix_then d t Hd Ht) as Hdt.
  change ("-" +:+ d +:+ t) with (String "-" (d +:+ t)).
  unfold parseInt_10. cbn [trimStart]. change (isWhiteSpace "-") with false. cbv iota.
  rewrite Hdt. destruct d; [done|]. f_equal; lia.
Qed.

(** The JID of a chat id, with any text that has no ['@'] and does not
    start with a digit put before the suffix, is read as the chat id. *)
Lemma jid_with_text (n : Z) t :
  "@"%char ∉ list_ascii_of_string t → digitPrefix t = "" →
  jidToTelegramChatId (Number_toString n +:+ t +:+ "@telegram") = Some n.
Proof.
  intros Hat Ht. unfold jidToTelegramChatId.
  assert (String_endsWith (Number_toString n +:+ t +:+ "@telegram") "@telegram" = true) as ->.
  { apply String_endsWith_spec. exists (Number_toString n +:+ t).
    by rewrite String_append_assoc. }
  rewrite <-String_append_assoc. rewrite String_replace_no_at.
  - unfold Number_toString, pretty, pretty_Z. destruct n as [|n|n].
    + by rewrite parseInt_10_digits_then.
    + change (pretty n) with (pretty (N.pos n)).
      rewrite parseInt_10_digits_then
        by auto using pretty_N_digits, pretty_N_nonempty.
      by rewrite pretty_N_value.
    + change (pretty n) with (pretty (N.pos n)).
      rewrite String_append_assoc.
      rewrite parseInt_10_minus_digits_then
        by auto using pretty_N_digits, pretty_N_nonempty.
      by rewrite pretty_N_value.
  - rewrite String_append_chars. apply not_elem_of_app. split; [|done].
    unfold Number_toString, pretty, pretty_Z. destruct n as [|n|n].
    + by apply digits_no_at.
    + apply digits_no_at, (pretty_N_digits (N.pos n)).
    + change ("-" +:+ pretty n) with (String "-" (pretty (N.pos n))).
      cbn [list_ascii_of_string]. apply not_elem_of_cons. split; [done|].
      apply digits_no_at, (pretty_N_digits (N.pos n)).
Qed.

Lemma jid_of_chat_id_parses (n : Z) :
  jidToTelegramChatId (telegramChatIdToJid n) = Some n.
Proof. apply (jid_with_text n ""); [apply not_elem_of_nil|done]. Qed.

Lemma Number_toString_nonempty (n : Z) : Number_toString n ≠ "".
Proof.
  unfold Number_toString, pretty, pretty_Z. destruct n as [|n|n]; [done| |done].
  apply (pretty_N_nonempty (N.pos n)).
Qed.

End JidParsing.

(** X8. Different chats have different JIDs. *)
Theorem telegramChatIdToJid_injective (c1 c2 : Z) :
  Number_isSafeInteger c1 → Number_isSafeInteger c2 →
  c1 ≠ c2 → telegramChatIdToJid c1 ≠ telegramChatIdToJid c2.
Proof.
  intros _ _ Hne Heq. apply Hne.
  pose proof (jid_of_chat_id_parses c1) as H1. rewrite Heq in H1.
  rewrite jid_of_chat_id_parses in H1. by injection H1.
Qed.

(** X9. [jidToTelegramChatId] does not insist on the form written by
    [telegramChatIdToJid]: text between the digits and the suffix is
    ignored, as long as it does not start with a digit and has no ['@'] in
    it. *)
Theorem jid_trailing_text_ignored (c : Z) (t : string) :
  Number_isSafeInteger c →
  "@"%char ∉ list_ascii_of_string t →
  digitPrefix t = "" →
  jidToTelegramChatId (Number_toString c +:+ t +:+ "@telegram") = Some c.
Proof. intros _. apply jid_with_text. Qed.

(** ** The Telegram channel *)

Section ChannelFacts.
Context {Group : Type} (Date_toISOString : Z → string).
Implicit Types (msg : TelegramMessage) (registeredGroups : gmap string Group).

Lemma truthy_nonempty (a : option string) s : truthy a = Some s → s ≠ "" ∧ a = Some s.
Proof. destruct a as [[|c a]|]; simpl; intros [= <-]; done. Qed.

Lemma or_else_nonempty (a : option string) b : b ≠ "" → or_else a b ≠ "".
Proof.
  intros Hb. unfold or_else. destruct (truthy a) as [s|] eqn:Ha; [|done].
  by apply truthy_nonempty in Ha as [? _].
Qed.

Lemma photoContent_nonempty msg photo download : photoContent msg photo download ≠ "".
Proof. by destruct download. Qed.

Lemma deliverMessage_effects msg content eff :
  eff ∈ deliverMessage Date_toISOString msg content →
  let jid := telegramChatIdToJid (chat_id (msg_chat msg)) in
  (∃ id sender senderName timestamp,
     eff = storeGenericMessage id jid sender senderName content timestamp false "telegram") ∨
  (∃ m, eff = onMessage jid m ∧ nm_content m = content).
Proof.
  unfold deliverMessage. intros [->|[->|[]%elem_of_nil]%elem_of_cons]%elem_of_cons.
  - left. by eexists _, _, _, _.
  - right. by eexists.
Qed.

(** The application is told the JID of the chat, by either listener. *)
Lemma onMessage_jid registeredGroups msg download j m :
  onMessage j m ∈ onTextMessage Date_toISOString registeredGroups msg ∨
  onMessage j m ∈ onMessageOrPhoto Date_toISOString registeredGroups msg download →
  j = telegramChatIdToJid (chat_id (msg_chat msg)).
Proof.
  assert (Hd : ∀ content, onMessage j m ∈ deliverMessage Date_toISOString msg content →
                 j = telegramChatIdToJid (chat_id (msg_chat msg))).
  { intros content [(? & ? & ? & ? & [=])|(m' & [= -> _] & _)]%deliverMessage_effects. done. }
  intros [Hin|Hin].
  - unfold onTextMessage in Hin. destruct (truthy (msg_text msg)); [|by apply elem_of_nil in Hin].
    apply elem_of_cons in Hin as [[=]|Hin].
    destruct (registeredGroups !! _); [by eapply Hd|by apply elem_of_nil in Hin].
  - unfold onMessageOrPhoto in Hin. apply elem_of_cons in Hin as [[=]|Hin].
    apply elem_of_app in Hin as [Hin|Hin].
    + destruct (last _) as [photo|]; [destruct download|];
        try (by apply elem_of_nil in Hin).
      by apply list_elem_of_singleton in Hin.
    + repeat case_match; try (by apply elem_of_nil in Hin); by eapply Hd.
Qed.

End ChannelFacts.

(** X10. [sendTelegramMessage] never rejects, whether the Bot API call
    succeeds or fails. It makes at most one call, [sendMessage] with the
    given text to the chat the JID parses to, and none without a bot or
    for a JID that is not a Telegram JID, in which cases it logs an error.
    With a bot, a message for the JID of chat [c] goes to chat [c]. *)
Theorem sendTelegramMessage_reaches_the_chat
    (bot : option TelegramBot) (jid text : string) (reply : option string) :
  let r := sendTelegramMessage bot jid text reply in
  returns r = true ∧
  (∀ call, call ∈ botCalls (state_of r) →
     is_Some bot ∧
     ∃ chatId, jidToTelegramChatId jid = Some chatId ∧
               botCalls (state_of r) = [sendMessage chatId text]) ∧
  (bot = None ∨ jidToTelegramChatId jid = None →
     botCalls (state_of r) = [] ∧
     ∃ line, logged (state_of r) = [line] ∧ level line = LevelError) ∧
  ∀ c, is_Some bot → Number_isSafeInteger c → jid = telegramChatIdToJid c →
       botCalls (state_of r) = [sendMessage c text].
Proof.
  intros r. unfold r, sendTelegramMessage.
  split_and!.
  - destruct bot; [|done]. destruct (jidToTelegramChatId jid); [|done]. by destruct reply.
  - intros call. destruct bot as [b|]; [|by intros ?%elem_of_nil].
    destruct (jidToTelegramChatId jid) as [chatId|]; [|by intros ?%elem_of_nil].
    intros _. split; [done|]. exists chatId. by destruct reply.
  - intros [->|Hjid].
    + split; [done|]. by eexists.
    + rewrite Hjid. destruct bot; (split; [done|]); by eexists.
  - intros c [b ->] _ ->. rewrite jid_of_chat_id_parses. by destruct reply.
Qed.

(** X11. [setTelegramTyping] never rejects; asked to stop typing it does
    nothing at all; the only call it ever makes is [sendChatAction] with
    ['typing'], to the chat of the JID. *)
Theorem setTelegramTyping_only_starts_typing
    (bot : option TelegramBot) (jid : string) (isTyping : bool) (reply : option string) :
  let r := setTelegramTyping bot jid isTyping reply in
  returns r = true ∧
  (isTyping = false → state_of r = {| botCalls := []; logged := [] |}) ∧
  (∀ call, call ∈ botCalls (state_of r) →
     isTyping = true ∧ is_Some bot ∧
     ∃ chatId, jidToTelegramChatId jid = Some chatId ∧
               call = sendChatAction chatId "typing") ∧
  ∀ c, is_Some bot → Number_isSafeInteger c → jid = telegramChatIdToJid c →
       isTyping = true → botCalls (state_of r) = [sendChatAction c "typing"].
Proof.
  intros r. unfold r, setTelegramTyping.
  split_and!.
  - destruct bot; [|done]. destruct isTyping; [|done].
    destruct (jidToTelegramChatId jid); [|done]. by destruct reply.
  - intros ->. by destruct bot.
  - intros call. destruct bot as [b|]; [|by intros ?%elem_of_nil].
    destruct isTyping; [|by intros ?%elem_of_nil]. simpl.
    destruct (jidToTelegramChatId jid) as [chatId|]; [|by intros ?%elem_of_nil].
    intros Hcall. split_and!; [done|done|]. exists chatId. split; [done|].
    destruct reply; by apply list_elem_of_singleton in Hcall.
  - intros c [b ->] _ -> ->. simpl. rewrite jid_of_chat_id_parses. by destruct reply.
Qed.

(** X12. An empty [TELEGRAM_BOT_TOKEN] counts as a missing one:
    [connectTelegram] returns [null] and leaves the bot as it was. With a
    token it makes a new polling bot and returns it. It never takes a bot
    away, and without a bot neither [sendTelegramMessage] nor
    [setTelegramTyping] calls the Bot API. *)
Theorem connectTelegram_needs_a_token
    (env_token : option string) (bot : option TelegramBot) :
  let bot' := (connectTelegram env_token bot).1 in
  let returned := (connectTelegram env_token bot).2 in
  (env_token = None ∨ env_token = Some "" → bot' = bot ∧ returned = None) ∧
  (∀ t, env_token = Some t → t ≠ "" →
        bot' = Some {| token := t; polling := true |} ∧ returned = bot') ∧
  (isTelegramConnected bot = true → isTelegramConnected bot' = true) ∧
  (isTelegramConnected bot' = false →
     ∀ jid text isTyping reply,
       botCalls (state_of (sendTelegramMessage bot' jid text reply)) = [] ∧
       botCalls (state_of (setTelegramTyping bot' jid isTyping reply)) = []).
Proof.
  intros bot' returned. unfold bot', returned, connectTelegram. split_and!.
  - by intros [->| ->].
  - intros t -> Ht. by destruct t.
  - destruct (truthy env_token); [done|]. by destruct bot.
  - destruct (truthy env_token); [done|]. simpl. by destruct bot.
Qed.

(** X13. The listener for text messages. A message without text, or with
    an empty one, has no effect. Otherwise the chat is first recorded
    under its JID, whether it is registered or not. The content of the
    message is stored and passed to the application only for a registered
    chat, both under the JID of the chat and with the text as it came; for
    a chat that is not registered nothing but the chat record is written. *)
Theorem text_listener_effects (Group : Type) (Date_toISOString : Z → string)
    (registeredGroups : gmap string Group) (msg : TelegramMessage) :
  let jid := telegramChatIdToJid (chat_id (msg_chat msg)) in
  let record := storeChatMetadata jid (Date_toISOString (msg_date msg * 1000)%Z)
                  (chatName_of msg) in
  let effects := onTextMessage Date_toISOString registeredGroups msg in
  (truthy (msg_text msg) = None → effects = []) ∧
  (is_Some (truthy (msg_text msg)) → head effects = Some record) ∧
  (registeredGroups !! jid = None → ∀ eff, eff ∈ effects → eff = record) ∧
  (∀ eff, eff ∈ effects →
     eff = record ∨
     is_Some (registeredGroups !! jid) ∧
     ∃ text, truthy (msg_text msg) = Some text ∧
       ((∃ id sender senderName timestamp,
           eff = storeGenericMessage id jid sender senderName text timestamp false "telegram") ∨
        (∃ m, eff = onMessage jid m ∧ nm_content m = text))) ∧
  (is_Some (registeredGroups !! jid) → is_Some (truthy (msg_text msg)) →
     ∃ m, onMessage jid m ∈ effects).
Proof.
  intros jid record effects. unfold effects, onTextMessage. fold jid.
  destruct (truthy (msg_text msg)) as [text|] eqn:Htext.
  - split_and!; [done|done| | |].
    + intros ->. by intros eff ->%list_elem_of_singleton.
    + intros eff [->|Hin]%elem_of_cons; [by left|]. right.
      destruct (registeredGroups !! jid) as [g|]; [|by apply elem_of_nil in Hin].
      split; [done|]. exists text. split; [done|].
      by apply deliverMessage_effects in Hin.
    + intros [g ->] _. eexists. right. right. left.
  - split_and!; [done|by intros [? [=]]|by intros _ eff ?%elem_of_nil|
                 by intros eff ?%elem_of_nil|by intros _ [? [=]]].
Qed.

(** X14. Answering on the JID the application was given reaches the chat
    the message came from, with either listener. *)
Theorem reply_reaches_the_chat (Group : Type) (Date_toISOString : Z → string)
    (registeredGroups : gmap string Group) (msg : TelegramMessage) (download : Download)
    (jid : string) (m : NewMessage)
    (bot : TelegramBot) (text : string) (reply : option string) :
  Number_isSafeInteger (chat_id (msg_chat msg)) →
  onMessage jid m ∈ onTextMessage Date_toISOString registeredGroups msg ∨
  onMessage jid m ∈ onMessageOrPhoto Date_toISOString registeredGroups msg download →
  botCalls (state_of (sendTelegramMessage (Some bot) jid text reply)) =
    [sendMessage (chat_id (msg_chat msg)) text].
Proof.
  intros _ Hin. apply onMessage_jid in Hin as ->.
  unfold sendTelegramMessage. rewrite jid_of_chat_id_parses. by destruct reply.
Qed.


(** X16. The listener that takes photos. The chat is recorded for every
    message, with or without content. A message with a photo always has a
    content, whatever becomes of the download, so for a registered chat it
    always reaches the application; the text of such a message is not
    used. The image is written when the download succeeds, for any chat,
    registered or not; the content of the message is kept for registered
    chats only. *)
Theorem photo_listener_effects (Group : Type) (Date_toISOString : Z → string)
    (registeredGroups : gmap string Group) (msg : TelegramMessage) (download : Download) :
  let jid := telegramChatIdToJid (chat_id (msg_chat msg)) in
  let record := storeChatMetadata jid (Date_toISOString (msg_date msg * 1000)%Z)
                  (chatName_of msg) in
  let effects := onMessageOrPhoto Date_toISOString registeredGroups msg download in
  head effects = Some record ∧
  (∀ photo, last (default [] (msg_photo msg)) = Some photo →
     (writeImage (file_id photo) ∈ effects ↔ download = Downloaded) ∧
     (is_Some (registeredGroups !! jid) →
        ∃ m, onMessage jid m ∈ effects ∧
             nm_content m = photoContent msg photo download ∧ nm_content m ≠ "")) ∧
  (registeredGroups !! jid = None →
     ∀ eff, eff ∈ effects → eff = record ∨ ∃ fileId, eff = writeImage fileId).
Proof.
  intros jid record effects. unfold effects, onMessageOrPhoto. fold jid.
  split_and!; [done| |].
  - intros photo ->. pose proof (photoContent_nonempty msg photo download) as Hne.
    split.
    + split.
      * intros [[=]|Hin]%elem_of_cons. apply elem_of_app in Hin as [Hin|Hin].
        -- destruct download; by try apply elem_of_nil in Hin.
        -- destruct (photoContent msg photo download); [by destruct Hne|].
           destruct (registeredGroups !! jid); [|by apply elem_of_nil in Hin].
           by apply deliverMessage_effects in Hin as
             [(? & ? & ? & ? & [=])|(? & [=] & _)].
      * intros ->. right. apply elem_of_app. left. left.
    + intros [g ->]. destruct (photoContent msg photo download) as [|c content] eqn:Hc;
        [by destruct Hne|].
      eexists. split; [right; apply elem_of_app; right; right; left|done].
  - intros ->. intros eff [->|Hin]%elem_of_cons; [by left|].
    apply elem_of_app in Hin as [Hin|Hin].
    + right. destruct (last _) as [photo|]; [destruct download|];
        try (by apply elem_of_nil in Hin).
      apply list_elem_of_singleton in Hin. by eexists.
    + by destruct (match last _ with Some _ => _ | None => _ end);
        apply elem_of_nil in Hin.
Qed.

(** X17. On a message without photo the two listeners differ only when
    there is no text: the earlier one does nothing, the later one still
    records the chat. With a text they do the same. *)
Theorem listeners_agree_on_text (Group : Type) (Date_toISOString : Z → string)
    (registeredGroups : gmap string Group) (msg : TelegramMessage) (download : Download) :
  default [] (msg_photo msg) = [] →
  (is_Some (truthy (msg_text msg)) →
     onMessageOrPhoto Date_toISOString registeredGroups msg download =
     onTextMessage Date_toISOString registeredGroups msg) ∧
  (truthy (msg_text msg) = None →
     onTextMessage Date_toISOString registeredGroups msg = [] ∧
     onMessageOrPhoto Date_toISOString registeredGroups msg download =
       [storeChatMetadata (telegramChatIdToJid (chat_id (msg_chat msg)))
          (Date_toISOString (msg_date msg * 1000)%Z) (chatName_of msg)]).
Proof.
  intros Hphoto. unfold onMessageOrPhoto, onTextMessage, or_else. rewrite Hphoto. simpl.
  destruct (truthy (msg_text msg)) as [text|] eqn:Htext.
  - split; [|done]. intros _. apply truthy_nonempty in Htext as [Hne _].
    by destruct text.
  - split; [by intros [? [=]]|done].
Qed.

(** ** Further concrete runs *)

(** An event that [JSON.stringify] refuses, then 100 events, then a
    viewer: the history has the last 100, the first event has left the
    buffer. *)
Lemma overflow_scenario :
  let pre := Publish (ev 13) :: ((λ n, Publish (ev n)) <$> seq 100 100) in
  let post := [Publish (ev 200)] in
  let s := run sample_stringify pre startDashboardServer in
  lastn 100 (published pre) = ev <$> seq 100 100 ∧
  ∃ history live,
    JSON_stringify sample_stringify (History (lastn 100 (published pre))) = Some history ∧
    mapM (λ e, JSON_stringify sample_stringify (Live e)) (published post) = Some live ∧
    receivedBy (nextSocket s)
      (run sample_stringify post (step sample_stringify s Connect)) = history :: live.
Proof.
  intros pre post s.
  assert (lastn 100 (published pre) = ev <$> seq 100 100) as Hlast by by vm_compute.
  split; [exact Hlast|].
  apply (history_is_the_last_100 nat sample_stringify pre post).
  - intros i Hi. unfold post in Hi.
    apply list_elem_of_singleton in Hi as ->. reflexivity.
  - rewrite Hlast. apply Forall_fmap, Forall_forall. intros n Hn.
    apply elem_of_seq in Hn. unfold serialisable, sample_stringify. simpl.
    rewrite decide_False by lia. by eexists.
  - simpl. apply Forall_singleton. by eexists.
Defined.

Example overflow_scenario_values :
  let pre := Publish (ev 13) :: ((λ n, Publish (ev n)) <$> seq 100 100) in
  let s := run sample_stringify pre startDashboardServer in
  receivedBy (nextSocket s)
    (run sample_stringify [Publish (ev 200)] (step sample_stringify s Connect)) =
  [history_frame (pretty <$> seq 100 100); event_frame "200"].
Proof. by vm_compute. Qed.

(** A viewer connects after one event, gets two more and starts closing. *)
Lemma window_scenario :
  let inputs := [Publish (ev 1); Connect; Publish (ev 2); Publish (ev 3);
                 BeginClose 0; Publish (ev 4)] in
  let sock := {| readyState := CLOSING;
                 sendCalls := [(OPEN, history_frame ["1"]); (OPEN, event_frame "2");
                               (OPEN, event_frame "3")];
                 closeListener := true |} in
  sockets (run sample_stringify inputs startDashboardServer) !! 0 = Some sock ∧
  ∃ a h evs b history live,
    published inputs = a ++ h ++ evs ++ b ∧
    length h ≤ 100 ∧
    (a = [] ∨ length h = 100) ∧
    JSON_stringify sample_stringify (History h) = Some history ∧
    mapM (λ e, JSON_stringify sample_stringify (Live e)) evs = Some live ∧
    received sock = history :: live ∧
    guarded sock ∧
    (readyState sock = OPEN → b = []).
Proof.
  intros inputs sock.
  assert (sockets (run sample_stringify inputs startDashboardServer) !! 0 = Some sock)
    as Hsock by (vm_compute; reflexivity).
  split; [exact Hsock|].
  apply (every_viewer_sees_a_window nat sample_stringify inputs 0 sock); [|exact Hsock].
  simpl. repeat (apply Forall_cons; split; [by eexists|]). apply Forall_nil_2.
Defined.

Lemma closing_scenario :
  let pre := [Connect; Publish (ev 1); BeginClose 0] in
  let post := [Publish (ev 2); Connect; Publish (ev 3)] in
  let sock := {| readyState := CLOSING;
                 sendCalls := [(OPEN, history_frame []); (OPEN, event_frame "1")];
                 closeListener := true |} in
  let s := run sample_stringify pre startDashboardServer in
  sockets s !! 0 = Some sock ∧
  ∃ sock', sockets (run sample_stringify post s) !! 0 = Some sock' ∧
           sendCalls sock' = sendCalls sock ∧ readyState sock' ≠ OPEN.
Proof.
  intros pre post sock s.
  assert (sockets s !! 0 = Some sock) as Hsock by (vm_compute; reflexivity).
  split; [exact Hsock|].
  apply (nothing_sent_once_not_open nat sample_stringify pre post 0 sock Hsock).
  discriminate.
Defined.

(** Three viewers, the first of which leaves; and a viewer that connects
    while the buffer holds an event that [JSON.stringify] refuses. *)
Lemma subscription_scenario :
  let s := run sample_stringify [Connect; Connect; Close 0; Connect] startDashboardServer in
  let s' := run sample_stringify [Connect; Publish (ev 13)] startDashboardServer in
  lid <$> listeners (bus s) = [1; 2] ∧
  (0 ∉ lid <$> listeners (bus s)) ∧
  (∃ sock, sockets s !! 2 = Some sock ∧ readyState sock ≠ CLOSED) ∧
  nextSocket s' = 1 ∧
  (1 ∉ lid <$> listeners (bus (step sample_stringify s' Connect))) ∧
  sockets (step sample_stringify s' Connect) !! 1 =
    Some {| readyState := OPEN; sendCalls := []; closeListener := false |}.
Proof.
  intros s s'.
  destruct (subscribed_iff_not_closed nat sample_stringify
              [Connect; Connect; Close 0; Connect]) as (_ & _ & _ & Hiff).
  assert (Forall (serialisable sample_stringify)
            (published [Connect; Connect; Close 0; Connect : Input nat])) as Hser
    by apply Forall_nil_2.
  destruct (subscribed_iff_not_closed nat sample_stringify [Connect; Publish (ev 13)])
    as (_ & _ & Hfail & _).
  split_and!; [by vm_compute| | |by vm_compute| |by vm_compute].
  - intros Hin. apply (Hiff Hser) in Hin as (sock & Hsock & Hopen).
    vm_compute in Hsock. injection Hsock as <-. by apply Hopen.
  - apply (Hiff Hser). vm_compute. right. left.
  - apply Hfail. by vm_compute.
Defined.

Lemma server_publish_scenario :
  let s := run sample_stringify [Connect; Connect; Close 0] startDashboardServer in
  let r := emitDashboard (ev 9) (bus s) (sockets s) in
  returns (outcome r) = true ∧ (1, ev 9) ∈ invoked r.
Proof.
  intros s r.
  destruct (server_publish_returns nat sample_stringify [Connect; Connect; Close 0] (ev 9))
    as (Hret & _ & _ & Hiff); [by eexists|].
  split; [exact Hret|]. apply Hiff; [apply Forall_nil_2|].
  eexists. split; [vm_compute; reflexivity|discriminate].
Defined.



Lemma distinct_jids_scenario :
  telegramChatIdToJid 12345 ≠ telegramChatIdToJid (-12345).
Proof.
  apply telegramChatIdToJid_injective; unfold Number_isSafeInteger; lia.
Defined.

Lemma trailing_text_scenario :
  jidToTelegramChatId "12345abc@telegram" = Some 12345%Z ∧
  jidToTelegramChatId "-12345 @telegram" = Some (-12345)%Z.
Proof.
  split.
  - apply (jid_trailing_text_ignored 12345 "abc"); [unfold Number_isSafeInteger; lia| |done].
    cbn. rewrite !not_elem_of_cons. split_and!; try discriminate. apply not_elem_of_nil.
  - apply (jid_trailing_text_ignored (-12345) " "); [unfold Number_isSafeInteger; lia| |done].
    cbn. rewrite !not_elem_of_cons. split_and!; try discriminate. apply not_elem_of_nil.
Defined.

Lemma send_scenario :
  botCalls (state_of (sendTelegramMessage (Some sample_bot) "-1001234567890@telegram"
                        "hello" (Some "ETELEGRAM: 403 Forbidden"))) =
    [sendMessage (-1001234567890) "hello"] ∧
  botCalls (state_of (sendTelegramMessage (Some sample_bot) "12345@g.us" "hello" None)) = [].
Proof.
  split.
  - destruct (sendTelegramMessage_reaches_the_chat (Some sample_bot)
                "-1001234567890@telegram" "hello" (Some "ETELEGRAM: 403 Forbidden"))
      as (_ & _ & _ & Hjid).
    apply (Hjid (-1001234567890)%Z); [by eexists| |by vm_compute].
    unfold Number_isSafeInteger. lia.
  - destruct (sendTelegramMessage_reaches_the_chat (Some sample_bot)
                "12345@g.us" "hello" None) as (_ & _ & Hnone & _).
    apply Hnone. by right.
Defined.

Lemma typing_scenario :
  state_of (setTelegramTyping (Some sample_bot) "12345@telegram" false None) =
    {| botCalls := []; logged := [] |} ∧
  botCalls (state_of (setTelegramTyping (Some sample_bot) "12345@telegram" true None)) =
    [sendChatAction 12345 "typing"].
Proof.
  split.
  - by apply (setTelegramTyping_only_starts_typing (Some sample_bot) "12345@telegram" false None).
  - destruct (setTelegramTyping_only_starts_typing (Some sample_bot)
                "12345@telegram" true None) as (_ & _ & _ & Hjid).
    apply (Hjid 12345%Z); [by eexists| |by vm_compute|done].
    unfold Number_isSafeInteger. lia.
Defined.

Lemma connect_scenario :
  connectTelegram (Some "") None = (None, None) ∧
  (connectTelegram (Some "123456:token") None).2 = Some sample_bot.
Proof.
  split.
  - destruct (connectTelegram_needs_a_token (Some "") None) as [Hempty _].
    destruct (Hempty ltac:(by right)) as [H1 H2].
    destruct (connectTelegram (Some "") None) as [b r]. simpl in *. by rewrite H1, H2.
  - destruct (connectTelegram_needs_a_token (Some "123456:token") None) as (_ & Htoken & _).
    destruct (Htoken "123456:token" eq_refl ltac:(discriminate)) as [H1 H2].
    by rewrite H2, H1.
Defined.

Lemma text_listener_scenario :
  onTextMessage sample_date sample_groups (sample_message (Some "") None) = [] ∧
  ∃ m, onMessage "-1001234567890@telegram" m
         ∈ onTextMessage sample_date sample_groups (sample_message (Some "hi") None).
Proof.
  split.
  - by apply (text_listener_effects nat sample_date sample_groups
               (sample_message (Some "") None)).
  - destruct (text_listener_effects nat sample_date sample_groups
                (sample_message (Some "hi") None)) as (_ & _ & _ & _ & Hreg).
    apply Hreg; by eexists.
Defined.

Example text_listener_values :
  onTextMessage sample_date sample_groups (sample_message (Some "hi") None) =
  [ storeChatMetadata "-1001234567890@telegram" "ms 1767225600000" "Family";
    storeGenericMessage "42" "-1001234567890@telegram" "777" "Ada" "hi"
      "ms 1767225600000" false "telegram";
    onMessage "-1001234567890@telegram"
      {| nm_id := "42"; nm_sender := "777"; nm_senderName := "Ada";
         nm_content := "hi"; nm_timestamp := "ms 1767225600000" |} ].
Proof. by vm_compute. Qed.

Lemma reply_scenario :
  let msg := sample_message (Some "hi") None in
  let m := {| nm_id := "42"; nm_sender := "777"; nm_senderName := "Ada";
              nm_content := "hi"; nm_timestamp := "ms 1767225600000" |} in
  onMessage "-1001234567890@telegram" m ∈ onTextMessage sample_date sample_groups msg ∧
  botCalls (state_of (sendTelegramMessage (Some sample_bot)
                        "-1001234567890@telegram" "hello" None)) =
    [sendMessage (-1001234567890) "hello"].
Proof.
  intros msg m.
  assert (onMessage "-1001234567890@telegram" m
            ∈ onTextMessage sample_date sample_groups msg) as Hin.
  { vm_compute. right. right. left. }
  split; [exact Hin|].
  apply (reply_reaches_the_chat nat sample_date sample_groups msg Downloaded
           "-1001234567890@telegram" m sample_bot "hello" None).
  - unfold Number_isSafeInteger. simpl. lia.
  - by left.
Defined.


Lemma photo_listener_scenario :
  let msg := sample_message None (Some [mkPhotoSize "small"; mkPhotoSize "large"]) in
  let effects := onMessageOrPhoto sample_date sample_groups msg
                   (DownloadFailed "getaddrinfo ENOTFOUND") in
  (writeImage "large" ∉ effects) ∧
  ∃ m, onMessage "-1001234567890@telegram" m ∈ effects ∧
       nm_content m = photoContent msg (mkPhotoSize "large")
                        (DownloadFailed "getaddrinfo ENOTFOUND") ∧
       nm_content m ≠ "".
Proof.
  intros msg effects.
  destruct (photo_listener_effects nat sample_date sample_groups msg
              (DownloadFailed "getaddrinfo ENOTFOUND")) as (_ & Hphoto & _).
  destruct (Hphoto (mkPhotoSize "large") eq_refl) as [Hwritten Hreg].
  split.
  - intros Hin. by apply Hwritten in Hin.
  - apply Hreg. by eexists.
Defined.

Example photo_listener_values :
  onMessageOrPhoto sample_date (∅ : gmap string nat)
    (sample_message (Some "ignored") (Some [mkPhotoSize "small"; mkPhotoSize "large"]))
    Downloaded =
  [ storeChatMetadata "-1001234567890@telegram" "ms 1767225600000" "Family";
    writeImage "large" ].
Proof. by vm_compute. Qed.

Lemma listeners_agree_scenario :
  onMessageOrPhoto sample_date sample_groups (sample_message (Some "hi") None) NoFilePath =
  onTextMessage sample_date sample_groups (sample_message (Some "hi") None).
Proof.
  apply (listeners_agree_on_text nat sample_date sample_groups
           (sample_message (Some "hi") None) NoFilePath); [done|by eexists].
Defined.
